(** * Weekly power metrics for ride files: a shallow embedding of
      [weekly_metrics.py] and the properties of its metrics engine.

    Conventions of the embedding.
    - Python [float] values are read as real numbers ([R]): every arithmetic
      operation is the exact one, so rounding, overflow, infinities and NaN
      are outside the model.
    - A raised exception is a value: fallible code lives in the [outcome]
      monad below.
    - A generator that the caller drains at once is the list of the values
      it yields, in order.
    - A dictionary with a fixed set of keys is a record; a dictionary used
      as a map is an association list in insertion order. *)

From Stdlib Require Import String Ascii Bool ZArith Reals Lra Lia List.
From Stdlib Require Import Permutation Sorted.
From Stdlib Require Import Decimal DecimalString DecimalZ.
From Stdlib Require DecimalFacts DecimalPos.
From Stdlib Require QArith Uint63 PrimFloat FloatOps SpecFloat.
Import ListNotations.

Set Implicit Arguments.

(** ** Exceptions *)

Inductive exn : Type :=
| StatisticsError   (* statistics.mean of no data *)
| IndexError        (* subscript out of range *)
| ValueError        (* unpacking a sequence of the wrong length *)
| OverflowError.    (* a float power beyond the range of a double *)

Inductive outcome (A : Type) : Type :=
| Returns (a : A)
| Raises (e : exn).

Arguments Returns {A} a.
Arguments Raises {A} e.

Definition bind {A B : Type} (c : outcome A) (k : A -> outcome B) : outcome B :=
  match c with
  | Returns a => k a
  | Raises e => Raises e
  end.

Notation "x <- c ;; k" := (bind c (fun x => k))
  (at level 61, c at next level, right associativity).

Fixpoint mapM {A B : Type} (f : A -> outcome B) (l : list A) : outcome (list B) :=
  match l with
  | [] => Returns []
  | a :: l' => b <- f a ;; bs <- mapM f l' ;; Returns (b :: bs)
  end.

(** ** Builtins on sequences of floats *)

Local Open Scope R_scope.

(** [sum(xs)]: a left fold that starts from 0. *)
Definition sum (xs : list R) : R := fold_left Rplus xs 0.

(** [statistics.mean(xs)]: raises [StatisticsError] on no data. *)
Definition mean (xs : list R) : outcome R :=
  match xs with
  | [] => Raises StatisticsError
  | _ :: _ => Returns (sum xs / INR (length xs))
  end.

(** [xs[start:stop]] for [0 <= start]. *)
Definition slice {A : Type} (xs : list A) (start stop : nat) : list A :=
  firstn (stop - start) (skipn start xs).

(** [x ** 0.25]; the code applies it to a mean of fourth powers only,
    which is never negative. *)
Definition pow_quarter (x : R) : R := sqrt (sqrt x).

(** ** Metrics calculator *)

Definition _rolling_average (values : list R) (window : Z) : list R :=
  flat_map
    (fun idx : nat =>
       let start := (Z.of_nat idx - window + 1)%Z in
       if (start <? 0)%Z then []
       else
         let window_slice := slice values (Z.to_nat start) (idx + 1) in
         [sum window_slice / IZR window])
    (seq 0 (length values)).

Definition _normalized_power (powers : list R) : outcome R :=
  let rolling_avgs := _rolling_average powers 30 in
  match rolling_avgs with
  | [] =>
      match powers with
      | [] => Returns 0
      | _ :: _ => mean powers
      end
  | _ :: _ =>
      fourth_power_avg <- mean (map (fun value => value ^ 4) rolling_avgs) ;;
      Returns (pow_quarter fourth_power_avg)
  end.

(** [p > 0]. *)
Definition gt0 (p : R) : bool := if Rlt_dec 0 p then true else false.

Definition _noncoasting_average (powers : list R) : outcome R :=
  let nonzero := filter gt0 powers in
  match nonzero with
  | [] => Returns 0
  | _ :: _ => mean nonzero
  end.

(** ** Timestamps: [datetime.datetime] (naive), as CPython's [_pydatetime] has it *)

Module datetime.

Record t : Type := make {
  year : Z; month : Z; day : Z;
  hour : Z; minute : Z; second : Z; microsecond : Z
}.

Local Open Scope Z_scope.

Definition _is_leap (y : Z) : bool :=
  (y mod 4 =? 0) && (negb (y mod 100 =? 0) || (y mod 400 =? 0)).

Definition _days_before_year (y : Z) : Z :=
  let y := y - 1 in
  y * 365 + y / 4 - y / 100 + y / 400.

Definition _DAYS_BEFORE_MONTH : list Z :=
  [-1; 0; 31; 59; 90; 120; 151; 181; 212; 243; 273; 304; 334].

Definition _days_before_month (y m : Z) : Z :=
  nth (Z.to_nat m) _DAYS_BEFORE_MONTH 0
  + (if (2 <? m) && _is_leap y then 1 else 0).

Definition _ymd2ord (y m d : Z) : Z :=
  _days_before_year y + _days_before_month y m + d.

Definition toordinal (d : t) : Z := _ymd2ord (year d) (month d) (day d).

Definition _isoweek1monday (y : Z) : Z :=
  let THURSDAY := 3 in
  let firstday := _ymd2ord y 1 1 in
  let firstweekday := (firstday + 6) mod 7 in
  let week1monday := firstday - firstweekday in
  if THURSDAY <? firstweekday then week1monday + 7 else week1monday.

(** [d.isocalendar()]: (ISO year, ISO week, ISO weekday). *)
Definition isocalendar (d : t) : Z * Z * Z :=
  let y := year d in
  let week1monday := _isoweek1monday y in
  let today := toordinal d in
  let week := (today - week1monday) / 7 in
  let wday := (today - week1monday) mod 7 in
  if week <? 0 then
    let y := y - 1 in
    let week1monday := _isoweek1monday y in
    let week := (today - week1monday) / 7 in
    let wday := (today - week1monday) mod 7 in
    (y, week + 1, wday + 1)
  else if 52 <=? week then
    if _isoweek1monday (y + 1) <=? today then (y + 1, 0 + 1, wday + 1)
    else (y, week + 1, wday + 1)
  else (y, week + 1, wday + 1).

(** Comparison is that of the tuples of fields. *)
Definition fields (d : t) : list Z :=
  [year d; month d; day d; hour d; minute d; second d; microsecond d].

Fixpoint cmp_tuple (a b : list Z) : comparison :=
  match a, b with
  | [], [] => Eq
  | [], _ :: _ => Lt
  | _ :: _, [] => Gt
  | x :: a', y :: b' =>
      match x ?= y with
      | Eq => cmp_tuple a' b'
      | c => c
      end
  end.

Definition cmp (a b : t) : comparison := cmp_tuple (fields a) (fields b).

Definition leb (a b : t) : bool :=
  match cmp a b with Gt => false | _ => true end.

(** [a - b] is a [timedelta]; a normalised [timedelta] is determined by
    its length in microseconds, which is how it is kept here. *)
Definition timedelta : Type := Z.

Definition sub (a b : t) : timedelta :=
  let days := toordinal a - toordinal b in
  let secs := (second a + minute a * 60 + hour a * 3600)
              - (second b + minute b * 60 + hour b * 3600) in
  let us := microsecond a - microsecond b in
  (days * 86400 + secs) * 1000000 + us.

Definition total_seconds (d : timedelta) : R := (IZR d / 1000000)%R.

End datetime.

(** ** Sorting: [sorted(xs, key=...)] is a stable sort on the keys *)

Section Sorted.
Variables (A K : Type) (key : A -> K) (leb : K -> K -> bool).

Fixpoint insert_sorted (x : A) (xs : list A) : list A :=
  match xs with
  | [] => [x]
  | y :: xs' =>
      if leb (key x) (key y) then x :: xs else y :: insert_sorted x xs'
  end.

(** Elements are inserted from the last to the first, each one in front
    of the elements whose key is not smaller: equal keys keep the order
    of the input. *)
Definition sorted (xs : list A) : list A := fold_right insert_sorted [] xs.
End Sorted.

(** ** Record extractor *)

(** A power reading is an [int] or a [float]. *)
Inductive number : Type :=
| PyInt (n : Z)
| PyFloat (x : R).

Definition float (v : number) : R :=
  match v with
  | PyInt n => IZR n
  | PyFloat x => x
  end.

(** A decoded message is its fields in order; a value may be [None].  The
    decoder gives a [datetime] under the name "timestamp" and a number
    under the name "power". *)
Inductive field : Type :=
| timestamp_field (value : option datetime.t)
| power_field (value : option number)
| other_field (name : string).

Definition message : Type := list field.

(** [{field.name: field.value for field in record}.get("timestamp")]: the
    last field of that name decides. *)
Definition get_timestamp (record : message) : option datetime.t :=
  fold_left
    (fun data f => match f with timestamp_field v => v | _ => data end)
    record None.

Definition get_power (record : message) : option number :=
  fold_left
    (fun data f => match f with power_field v => v | _ => data end)
    record None.

Definition Record_ : Type := (datetime.t * R)%type.

(** The body of the loop of [_extract_records]: what one message appends. *)
Definition extract_one (record : message) : list Record_ :=
  match get_timestamp record, get_power record with
  | Some timestamp, Some power => [(timestamp, float power)]
  | _, _ => []
  end.

(** [_extract_records], from the messages that the decoder yields for the
    file. *)
Definition _extract_records (messages : list message) : list Record_ :=
  let records := flat_map extract_one messages in
  sorted (@fst datetime.t R) datetime.leb records.

(** ** Energy *)

(** The body of the loop of [_ride_energy_kj] on one pair of
    [zip(records, records[1:])]. *)
Definition energy_step (energy_joules : R) (pair : Record_ * Record_) : R :=
  let '((time_prev, power_prev), (time_curr, _)) := pair in
  let delta := datetime.total_seconds (datetime.sub time_curr time_prev) in
  if Rle_dec delta 0 then energy_joules else energy_joules + power_prev * delta.

Definition _ride_energy_kj (records : list Record_) : R :=
  if (List.length records <? 2)%nat then 0
  else
    let energy_joules :=
      fold_left energy_step (combine records (tl records)) 0
    in energy_joules / 1000.

(** ** Ride analyzer *)

Module Ride.
Record t : Type := make {
  file : string;
  start_time : datetime.t;
  avg_watts : R;
  avg_np : R;
  avg_noncoasting_watts : R;
  total_kj : R
}.
End Ride.

Definition RideMetrics : Type := Ride.t.

(** [os.path.basename]: what follows the last slash. *)
Fixpoint basename_from (tail : string) (path : string) : string :=
  match path with
  | EmptyString => tail
  | String c rest =>
      if Ascii.eqb c "/"%char then basename_from EmptyString rest
      else basename_from (tail ++ String c EmptyString)%string rest
  end.

Definition basename (path : string) : string := basename_from EmptyString path.

(** Unpacking the transposed records into timestamps and powers: there
    is nothing to unpack when there is no record. *)
Definition unzip (records : list Record_) : outcome (list datetime.t * list R) :=
  match records with
  | [] => Raises ValueError
  | _ :: _ => Returns (split records)
  end.

(** [xs[i]] for [0 <= i]. *)
Definition subscript {A : Type} (xs : list A) (i : nat) : outcome A :=
  match nth_error xs i with
  | Some x => Returns x
  | None => Raises IndexError
  end.

(** [analyze_ride], from the path and the messages that the decoder yields
    for it; [None] is the absence of a ride. *)
Definition analyze_ride (fit_path : string) (messages : list message)
  : outcome (option RideMetrics) :=
  let records := _extract_records messages in
  match records with
  | [] => Returns None
  | _ :: _ =>
      tp <- unzip records ;;
      let '(timestamps, powers) := tp in
      avg_power <- mean powers ;;
      start <- subscript timestamps 0 ;;
      np <- _normalized_power powers ;;
      noncoasting <- _noncoasting_average powers ;;
      Returns (Some {|
        Ride.file := basename fit_path;
        Ride.start_time := start;
        Ride.avg_watts := avg_power;
        Ride.avg_np := np;
        Ride.avg_noncoasting_watts := noncoasting;
        Ride.total_kj := _ride_energy_kj records
      |})
  end.

(** ** The metrics with the range error of the fourth power

    The definitions above read [value ** 4] as the real fourth power.  On
    floats Python raises [OverflowError] when the result of [**] is beyond
    the range of a double, which is the case from [2 ^ 256] on for the
    fourth power of a double.  The module below is the same code with this
    error; everything else is as above. *)

Module Checked.

(** [value ** 4]. *)
Definition pow4 (value : R) : outcome R :=
  if Rle_dec (2 ^ 1024) (value ^ 4) then Raises OverflowError
  else Returns (value ^ 4).

Definition _normalized_power (powers : list R) : outcome R :=
  let rolling_avgs := _rolling_average powers 30 in
  match rolling_avgs with
  | [] =>
      match powers with
      | [] => Returns 0
      | _ :: _ => mean powers
      end
  | _ :: _ =>
      fourth_powers <- mapM pow4 rolling_avgs ;;
      fourth_power_avg <- mean fourth_powers ;;
      Returns (pow_quarter fourth_power_avg)
  end.

Definition analyze_ride (fit_path : string) (messages : list message)
  : outcome (option RideMetrics) :=
  let records := _extract_records messages in
  match records with
  | [] => Returns None
  | _ :: _ =>
      tp <- unzip records ;;
      let '(timestamps, powers) := tp in
      avg_power <- mean powers ;;
      start <- subscript timestamps 0 ;;
      np <- _normalized_power powers ;;
      noncoasting <- _noncoasting_average powers ;;
      Returns (Some {|
        Ride.file := basename fit_path;
        Ride.start_time := start;
        Ride.avg_watts := avg_power;
        Ride.avg_np := np;
        Ride.avg_noncoasting_watts := noncoasting;
        Ride.total_kj := _ride_energy_kj records
      |})
  end.

End Checked.

(** ** Weekly aggregator *)

Definition WeekKey : Type := (Z * Z)%type.

Definition week_key_eqb (a b : WeekKey) : bool :=
  ((fst a =? fst b)%Z && (snd a =? snd b)%Z)%bool.

(** Tuples of integers compare lexicographically. *)
Definition week_key_leb (a b : WeekKey) : bool :=
  match (fst a ?= fst b)%Z with
  | Lt => true
  | Gt => false
  | Eq => (snd a <=? snd b)%Z
  end.

(** [grouped[week_key].append(ride)] on a [defaultdict(list)]: a key that is
    not there yet is added last, with the list that holds the ride. *)
Fixpoint dict_append (grouped : list (WeekKey * list RideMetrics))
    (week_key : WeekKey) (ride : RideMetrics) : list (WeekKey * list RideMetrics) :=
  match grouped with
  | [] => [(week_key, [ride])]
  | (k, rides) :: rest =>
      if week_key_eqb k week_key then (k, rides ++ [ride]) :: rest
      else (k, rides) :: dict_append rest week_key ride
  end.

Definition week_key_of (ride : RideMetrics) : WeekKey :=
  let iso_calendar := datetime.isocalendar (Ride.start_time ride) in
  (fst (fst iso_calendar), snd (fst iso_calendar)).

Definition group_by_week (rides : list RideMetrics)
  : list (WeekKey * list RideMetrics) :=
  fold_left
    (fun grouped ride => dict_append grouped (week_key_of ride) ride)
    rides [].

Definition _mean (values : list R) : outcome R :=
  match values with
  | [] => Returns 0
  | _ :: _ => mean values
  end.

(** [f"{n}"] and [f"{n:02d}"] for an integer. *)
Definition format_d (n : Z) : string := NilZero.string_of_int (Z.to_int n).

Definition format_02d (n : Z) : string :=
  let s := format_d n in
  if (String.length s <? 2)%nat then ("0" ++ s)%string else s.

Module Summary.
Record t : Type := make {
  week : string;
  avg_watts : R;
  avg_np : R;
  avg_noncoasting_watts : R;
  ride_count : nat;
  total_kj : R
}.
End Summary.

Definition week_label (week_key : WeekKey) : string :=
  (format_d (fst week_key) ++ "-W" ++ format_02d (snd week_key))%string.

Definition summarize_week (week_key : WeekKey) (rides : list RideMetrics)
  : outcome Summary.t :=
  a <- _mean (map Ride.avg_watts rides) ;;
  n <- _mean (map Ride.avg_np rides) ;;
  c <- _mean (map Ride.avg_noncoasting_watts rides) ;;
  Returns {|
    Summary.week := week_label week_key;
    Summary.avg_watts := a;
    Summary.avg_np := n;
    Summary.avg_noncoasting_watts := c;
    Summary.ride_count := List.length rides;
    Summary.total_kj := sum (map Ride.total_kj rides)
  |}.

(** The loop of [summarize_directory] over the files: a file without a
    ride is left out. *)
Fixpoint collect_rides (fit_files : list (string * list message))
  : outcome (list RideMetrics) :=
  match fit_files with
  | [] => Returns []
  | (fit_path, messages) :: rest =>
      ride_metrics <- analyze_ride fit_path messages ;;
      rides <- collect_rides rest ;;
      Returns (match ride_metrics with
               | Some ride => ride :: rides
               | None => rides
               end)
  end.

(** [sorted(grouped.items())]: the keys of a dictionary differ pairwise, so
    the comparison of two items is that of their keys. *)
Definition sorted_items (grouped : list (WeekKey * list RideMetrics))
  : list (WeekKey * list RideMetrics) :=
  sorted (@fst WeekKey (list RideMetrics)) week_key_leb grouped.

(** The aggregation of [summarize_directory]: grouping, then one row a
    week in the order of the keys. *)
Definition weekly_summaries (rides : list RideMetrics) : outcome (list Summary.t) :=
  let grouped := group_by_week rides in
  mapM (fun item : WeekKey * list RideMetrics =>
          summarize_week (fst item) (snd item))
       (sorted_items grouped).

(** [summarize_directory], from the [.fit] files of the directory in the
    order of their paths, each with the messages that the decoder yields
    for it; the rows are what is written and returned. *)
Definition summarize_directory (fit_files : list (string * list message))
  : outcome (list Summary.t) :=
  rides <- collect_rides fit_files ;;
  weekly_summaries rides.

(** ** The energy column in binary64

    The sums of [total_kj] read on doubles: [sum] adds from left to right
    and rounds every addition.  A ride is kept as its start and its
    [total_kj], the two fields that decide the [total_kj] of the rows. *)

Module B64.

Import QArith PrimFloat FloatOps SpecFloat.

(** [sum(xs)] on floats. *)
Definition sum (xs : list float) : float := fold_left PrimFloat.add xs 0%float.

(** The rational that a finite double stands for. *)
Definition exact (x : float) : Q :=
  match Prim2SF x with
  | S754_finite s m e =>
      let mantissa := if s then Z.neg m else Z.pos m in
      if (0 <=? e)%Z then inject_Z (mantissa * 2 ^ e)
      else Qmake mantissa (Z.to_pos (2 ^ (- e)))
  | _ => 0%Q
  end.

(** The sum of the values without any rounding. *)
Definition exact_sum (xs : list float) : Q :=
  fold_left (fun acc x => Qred (acc + exact x)) xs 0%Q.

Definition ride : Type := (datetime.t * float)%type.

Definition week_key_of (r : ride) : WeekKey :=
  let iso_calendar := datetime.isocalendar (fst r) in
  (fst (fst iso_calendar), snd (fst iso_calendar)).

Fixpoint dict_append (grouped : list (WeekKey * list ride))
    (week_key : WeekKey) (r : ride) : list (WeekKey * list ride) :=
  match grouped with
  | [] => [(week_key, [r])]
  | (k, rides) :: rest =>
      if week_key_eqb k week_key then (k, rides ++ [r]) :: rest
      else (k, rides) :: dict_append rest week_key r
  end.

Definition group_by_week (rides : list ride) : list (WeekKey * list ride) :=
  fold_left (fun grouped r => dict_append grouped (week_key_of r) r) rides [].

(** The [total_kj] of the rows, in the order of the rows. *)
Definition total_kj_of_rows (rides : list ride) : list float :=
  map (fun item : WeekKey * list ride => sum (map snd (snd item)))
      (sorted (@fst WeekKey (list ride)) week_key_leb (group_by_week rides)).

(** [_rolling_average] on floats: the sum of the window and its division
    by the window are rounded. *)
Definition _rolling_average (values : list float) (window : Z) : list float :=
  flat_map
    (fun idx : nat =>
       let start := (Z.of_nat idx - window + 1)%Z in
       if (start <? 0)%Z then []
       else
         let window_slice := slice values (Z.to_nat start) (idx + 1) in
         [(sum window_slice / of_uint63 (Uint63.of_Z window))%float])
    (seq 0 (List.length values)).

Set Warnings "-inexact-float".

(** A ride of week 2024-W05 and two rides of week 2024-W06. *)
Definition three_rides : list ride :=
  [(datetime.make 2024 1 29 10 0 0 0, 0.1%float);
   (datetime.make 2024 2 5 10 0 0 0, 0.2%float);
   (datetime.make 2024 2 7 10 0 0 0, 0.7%float)].

(** 123.4 W. *)
Definition watts_123_4 : float := 123.4%float.

(** What thirty samples of 123.4 W give as their one rolling average. *)
Definition rolled_123_4 : float := 123.40000000000006%float.

Set Warnings "+inexact-float".

End B64.

(** ** File discovery and the report of [main] *)

(** File names and paths are ASCII strings. *)

(** [c.lower()] for one character. *)
Definition lower_char (c : ascii) : ascii :=
  let n := nat_of_ascii c in
  if ((65 <=? n)%nat && (n <=? 90)%nat)%bool then ascii_of_nat (n + 32) else c.

(** [s.lower()]. *)
Fixpoint lower (s : string) : string :=
  match s with
  | EmptyString => EmptyString
  | String c s' => String (lower_char c) (lower s')
  end.

(** [s.endswith(suffix)]. *)
Definition endswith (s suffix : string) : bool :=
  let n := String.length s in
  let m := String.length suffix in
  ((m <=? n)%nat && String.eqb (substring (n - m) m s) suffix)%bool.

(** [s.startswith(prefix)]. *)
Definition startswith (s prefix : string) : bool := String.prefix prefix s.

(** [os.path.join(a, b)] of [posixpath]. *)
Definition join (a b : string) : string :=
  if startswith b "/" then b
  else if (String.eqb a EmptyString || endswith a "/")%bool then (a ++ b)%string
  else (a ++ "/" ++ b)%string.

(** The [.fit] test of [summarize_directory] on a name of the directory. *)
Definition is_fit (name : string) : bool := endswith (lower name) ".fit".

(** The files that [summarize_directory] analyzes, in order.  The listing
    is [None] when [data_dir] is not a directory and the result of
    [os.listdir(data_dir)] otherwise. *)
Definition fit_files_of (data_dir : string) (listing : option (list string))
  : list string :=
  match listing with
  | Some names =>
      sorted (fun fit_path : string => fit_path) String.leb
        (map (join data_dir) (filter is_fit names))
  | None => []
  end.

(** [summarize_directory] from the directory: [decode] gives the messages
    that the decoder yields for a path. *)
Definition summarize_data_dir (decode : string -> list message)
    (data_dir : string) (listing : option (list string))
  : outcome (list Summary.t) :=
  summarize_directory
    (map (fun fit_path => (fit_path, decode fit_path))
         (fit_files_of data_dir listing)).

(** What [main] prints for the summaries that [summarize_directory]
    returns. *)
Definition report (output : string) (summaries : list Summary.t) : string :=
  match summaries with
  | [] => "No FIT files found or no usable data."%string
  | _ :: _ => ("Wrote weekly summary to " ++ output)%string
  end.

(** A message that has both a timestamp and a power. *)
Definition complete (record : message) : bool :=
  match get_timestamp record, get_power record with
  | Some _, Some _ => true
  | _, _ => false
  end.

(** The seconds from sample [a] to sample [b], as the energy loop
    computes them. *)
Definition seconds_between (a b : Record_) : R :=
  datetime.total_seconds (datetime.sub (fst b) (fst a)).

(** A file with a message that has both a timestamp and a power. *)
Definition has_data (file : string * list message) : bool :=
  existsb complete (snd file).

(** The rides of the files that have one, in the order of the files. *)
Definition rides_of (fit_files : list (string * list message)) : list RideMetrics :=
  flat_map
    (fun file : string * list message =>
       match analyze_ride (fst file) (snd file) with
       | Returns (Some ride) => [ride]
       | _ => []
       end)
    fit_files.

(** Two rows that agree in every field but [total_kj]. *)
Definition same_but_total_kj (a b : Summary.t) : Prop :=
  Summary.week a = Summary.week b /\
  Summary.avg_watts a = Summary.avg_watts b /\
  Summary.avg_np a = Summary.avg_np b /\
  Summary.avg_noncoasting_watts a = Summary.avg_noncoasting_watts b /\
  Summary.ride_count a = Summary.ride_count b.

(** ** The code on small inputs *)

Definition t0 : datetime.t := datetime.make 2024 1 29 10 0 0 0.
Definition t1 : datetime.t := datetime.make 2024 1 29 10 0 1 0.
Definition t2 : datetime.t := datetime.make 2024 1 29 10 0 2 0.

Definition three_samples : list Record_ := [(t0, 100); (t1, 100); (t2, 100)].

(** Two messages of one timestamp and different powers, then a later one. *)
Definition msg (timestamp : datetime.t) (watts : Z) : message :=
  [timestamp_field (Some timestamp); power_field (Some (PyInt watts))].

Definition stream_a : list message := [msg t0 100; msg t0 200; msg t1 150].
Definition stream_b : list message := [msg t0 200; msg t0 100; msg t1 150].

(** Rides of ISO week 2024-W05, and rides around the new year. *)
Definition ride_w05_a : RideMetrics :=
  Ride.make "a.fit" (datetime.make 2024 1 29 10 0 0 0) 150 155 160 300.
Definition ride_w05_b : RideMetrics :=
  Ride.make "b.fit" (datetime.make 2024 2 4 18 30 0 0) 170 175 180 350.
Definition ride_dec30 : RideMetrics :=
  Ride.make "x.fit" (datetime.make 2024 12 30 8 0 0 0) 200 210 220 500.
Definition ride_jan01 : RideMetrics :=
  Ride.make "y.fit" (datetime.make 2025 1 1 8 0 0 0) 100 110 120 100.
Definition ride_dec29 : RideMetrics :=
  Ride.make "z.fit" (datetime.make 2024 12 29 8 0 0 0) 120 130 140 200.

(** A string in which the character does not occur. *)
Fixpoint free_of (c : ascii) (s : string) : Prop :=
  match s with
  | EmptyString => True
  | String a s' => a <> c /\ free_of c s'
  end.

(** ** What the specification calls a sum and an arithmetic mean *)

Definition total (xs : list R) : R := fold_right Rplus 0 xs.

Definition arithmetic_mean (xs : list R) : R := total xs / INR (List.length xs).

(** [P[lo..hi]], both ends included, by index. *)
Definition samples_between (P : list R) (lo hi : nat) : list R :=
  map (fun k => nth k P 0) (seq lo (hi + 1 - lo)).

(** Left-hold energy in joules, pair by pair. *)
Fixpoint joules_of_pairs (records : list Record_) : R :=
  match records with
  | [] => 0
  | (t_prev, p_prev) :: rest =>
      match rest with
      | [] => 0
      | (t_curr, _) :: _ =>
          let dt := datetime.total_seconds (datetime.sub t_curr t_prev) in
          (if Rlt_dec 0 dt then p_prev * dt else 0) + joules_of_pairs rest
      end
  end.

(** The strict order of week keys: year first, then week. *)
Definition week_key_lt (a b : WeekKey) : Prop :=
  (fst a < fst b)%Z \/ (fst a = fst b /\ (snd a < snd b)%Z).

(** The rides of one week, in the order of the input. *)
Definition rides_of_week (week_key : WeekKey) (rides : list RideMetrics)
  : list RideMetrics :=
  filter (fun ride => week_key_eqb (week_key_of ride) week_key) rides.

(** The row of a week as the specification describes it. *)
Definition row_of_week (rides : list RideMetrics) (week_key : WeekKey) : Summary.t :=
  let group := rides_of_week week_key rides in
  {| Summary.week := week_label week_key;
     Summary.avg_watts := arithmetic_mean (map Ride.avg_watts group);
     Summary.avg_np := arithmetic_mean (map Ride.avg_np group);
     Summary.avg_noncoasting_watts :=
       arithmetic_mean (map Ride.avg_noncoasting_watts group);
     Summary.ride_count := List.length group;
     Summary.total_kj := total (map Ride.total_kj group) |}.

(** Ascending order of samples by timestamp. *)
Definition by_timestamp (a b : Record_) : Prop :=
  datetime.leb (fst a) (fst b) = true.

(** The keys of the groups in the order in which their rows are emitted. *)
Definition week_keys (rides : list RideMetrics) : list WeekKey :=
  map fst (sorted_items (group_by_week rides)).

(** What the rolling average yields at index [i] of the input. *)
Definition window_value (values : list R) (i : nat) : R :=
  sum (slice values (i - 29) (i + 1)) / 30.

(** * Properties *)

(** ** Sums *)

Lemma fold_left_Rplus_acc (xs : list R) (a : R) :
  fold_left Rplus xs a = a + fold_left Rplus xs 0.
Proof.
  revert a; induction xs as [|x xs IH]; intros a; simpl.
  - lra.
  - rewrite (IH (a + x)), (IH (0 + x)); lra.
Qed.

Lemma sum_cons (x : R) (xs : list R) : sum (x :: xs) = x + sum xs.
Proof.
  unfold sum; simpl. rewrite fold_left_Rplus_acc. lra.
Qed.

Lemma sum_total (xs : list R) : sum xs = total xs.
Proof.
  induction xs as [|x xs IH]; [reflexivity|].
  rewrite sum_cons, IH; reflexivity.
Qed.


Lemma total_repeat (c : R) (n : nat) : total (repeat c n) = INR n * c.
Proof.
  induction n as [|n IH].
  - simpl; lra.
  - rewrite S_INR. simpl repeat. simpl total. rewrite IH. lra.
Qed.

Lemma total_nonneg (xs : list R) :
  Forall (fun x => 0 <= x) xs -> 0 <= total xs.
Proof.
  induction 1 as [|x xs Hx _ IH]; simpl; lra.
Qed.

Lemma mean_returns (xs : list R) :
  xs <> [] -> mean xs = Returns (arithmetic_mean xs).
Proof.
  destruct xs as [|x xs]; [congruence|]; intros _.
  unfold mean, arithmetic_mean. rewrite sum_total. reflexivity.
Qed.

Lemma INR_length_pos {A : Type} (xs : list A) : xs <> [] -> 0 < INR (List.length xs).
Proof.
  destruct xs as [|x xs]; [congruence|]; intros _.
  apply lt_0_INR. simpl. lia.
Qed.

Lemma arithmetic_mean_repeat (c : R) (n : nat) :
  (1 <= n)%nat -> arithmetic_mean (repeat c n) = c.
Proof.
  intros Hn. unfold arithmetic_mean.
  rewrite total_repeat, repeat_length.
  assert (0 < INR n) by (apply lt_0_INR; lia).
  field. lra.
Qed.

(** ** The rolling average *)

Lemma slice_by_index (P : list R) (lo n : nat) :
  (lo + n <= List.length P)%nat ->
  firstn n (skipn lo P) = map (fun k => nth k P 0) (seq lo n).
Proof.
  intros Hlen.
  apply nth_ext with (d := 0) (d' := 0).
  - rewrite length_firstn, length_skipn, length_map, length_seq. lia.
  - intros i Hi.
    rewrite length_firstn, length_skipn in Hi.
    assert (Hin : (i < n)%nat) by lia.
    rewrite nth_firstn.
    apply Nat.ltb_lt in Hin as Hb. rewrite Hb.
    rewrite nth_skipn.
    rewrite (nth_indep (map (fun k => nth k P 0) (seq lo n)) 0
               ((fun k => nth k P 0) 0%nat))
      by (rewrite length_map, length_seq; assumption).
    rewrite (map_nth (fun k => nth k P 0)), seq_nth by assumption.
    reflexivity.
Qed.

Lemma rolling_average_indices (values : list R) (n : nat) :
  flat_map
    (fun idx : nat =>
       let start := (Z.of_nat idx - 30 + 1)%Z in
       if (start <? 0)%Z then []
       else [sum (slice values (Z.to_nat start) (idx + 1)) / 30])
    (seq 0 n)
  = map (window_value values) (seq 29 (n - 29)).
Proof.
  induction n as [|n IH]; [reflexivity|].
  rewrite seq_S, flat_map_app, IH. simpl flat_map. rewrite app_nil_r.
  destruct (Z.ltb_spec (Z.of_nat n - 30 + 1) 0) as [Hlt|Hge].
  - replace (S n - 29)%nat with (n - 29)%nat by lia.
    rewrite app_nil_r. reflexivity.
  - replace (S n - 29)%nat with (S (n - 29)) by lia.
    rewrite seq_S, map_app. cbn [map].
    replace (29 + (n - 29))%nat with n by lia.
    unfold window_value.
    replace (Z.to_nat (Z.of_nat n - 30 + 1)) with (n - 29)%nat by lia.
    reflexivity.
Qed.

Lemma rolling_average_30 (values : list R) :
  _rolling_average values 30
  = map (window_value values) (seq 29 (List.length values - 29)).
Proof.
  unfold _rolling_average. apply rolling_average_indices.
Qed.

Lemma window_value_mean (P : list R) (i : nat) :
  (29 <= i < List.length P)%nat ->
  window_value P i = arithmetic_mean (samples_between P (i - 29) i).
Proof.
  intros Hi. unfold window_value, slice, samples_between, arithmetic_mean.
  replace (i + 1 - (i - 29))%nat with 30%nat by lia.
  rewrite sum_total, slice_by_index by lia.
  rewrite length_map, length_seq.
  replace (INR 30) with 30 by (simpl; lra).
  reflexivity.
Qed.

Lemma rolling_average_length (P : list R) :
  List.length (_rolling_average P 30) = (List.length P - 29)%nat.
Proof.
  rewrite rolling_average_30, length_map, length_seq. reflexivity.
Qed.


(** ** The fourth root *)

Lemma pow_quarter_nonneg (x : R) : 0 <= pow_quarter x.
Proof. unfold pow_quarter. apply sqrt_pos. Qed.


Lemma pow_quarter_of_pow4 (c : R) : 0 <= c -> pow_quarter (c ^ 4) = c.
Proof.
  intros Hc. unfold pow_quarter.
  replace (c ^ 4) with ((c * c) * (c * c)) by ring.
  rewrite sqrt_square by nra.
  apply sqrt_square; assumption.
Qed.


Lemma arithmetic_mean_nonneg (xs : list R) :
  xs <> [] -> Forall (fun x => 0 <= x) xs -> 0 <= arithmetic_mean xs.
Proof.
  intros Hne Hall. unfold arithmetic_mean.
  apply Rmult_le_pos.
  - apply total_nonneg; assumption.
  - left. apply Rinv_0_lt_compat. apply INR_length_pos; assumption.
Qed.

(** ** Normalized power *)

Lemma normalized_power_fallback (P : list R) :
  _rolling_average P 30 = [] -> P <> [] -> _normalized_power P = mean P.
Proof.
  intros Hnil Hne. unfold _normalized_power. rewrite Hnil.
  destruct P; [congruence | reflexivity].
Qed.

Lemma normalized_power_rolling (P : list R) :
  _rolling_average P 30 <> [] ->
  _normalized_power P
  = Returns (pow_quarter
               (arithmetic_mean (map (fun value => value ^ 4) (_rolling_average P 30)))).
Proof.
  intros Hne. unfold _normalized_power.
  destruct (_rolling_average P 30) as [|r rs] eqn:E; [congruence|].
  rewrite mean_returns by discriminate. reflexivity.
Qed.

Lemma rolling_average_nil_iff (P : list R) :
  _rolling_average P 30 = [] <-> (List.length P < 30)%nat.
Proof.
  split; intros H.
  - apply (f_equal (@List.length R)) in H.
    rewrite rolling_average_length in H. simpl in H. lia.
  - apply length_zero_iff_nil. rewrite rolling_average_length. lia.
Qed.

(** ** Constant power *)

Lemma map_constant {A B : Type} (f : A -> B) (c : B) (xs : list A) :
  (forall x, In x xs -> f x = c) -> map f xs = repeat c (List.length xs).
Proof.
  induction xs as [|x xs IH]; intros Hf; simpl; [reflexivity|].
  rewrite Hf by (left; reflexivity).
  rewrite IH by (intros y Hy; apply Hf; right; assumption).
  reflexivity.
Qed.

Arguments map_constant {A B} f c xs _.

Lemma nth_repeat_lt (c : R) (n k : nat) : (k < n)%nat -> nth k (repeat c n) 0 = c.
Proof.
  revert k; induction n as [|n IH]; intros k Hk; [lia|].
  destruct k as [|k]; simpl; [reflexivity | apply IH; lia].
Qed.

Lemma window_value_repeat (c : R) (n i : nat) :
  (29 <= i < n)%nat -> window_value (repeat c n) i = c.
Proof.
  intros Hi.
  rewrite window_value_mean by (rewrite repeat_length; assumption).
  unfold samples_between.
  rewrite (map_constant (fun k => nth k (repeat c n) 0) c).
  - rewrite length_seq. apply arithmetic_mean_repeat. lia.
  - intros k Hk. apply in_seq in Hk. apply nth_repeat_lt. lia.
Qed.

Lemma rolling_average_repeat (c : R) (n : nat) :
  _rolling_average (repeat c n) 30 = repeat c (n - 29).
Proof.
  rewrite rolling_average_30, repeat_length.
  rewrite (map_constant (window_value (repeat c n)) c).
  - rewrite length_seq. reflexivity.
  - intros i Hi. apply in_seq in Hi. apply window_value_repeat. lia.
Qed.

Lemma repeat_not_nil {A : Type} (c : A) (n : nat) : (1 <= n)%nat -> repeat c n <> [].
Proof. destruct n; [lia | discriminate]. Qed.

Lemma mean_repeat (c : R) (n : nat) : (1 <= n)%nat -> mean (repeat c n) = Returns c.
Proof.
  intros Hn. rewrite mean_returns by (apply repeat_not_nil; assumption).
  rewrite arithmetic_mean_repeat by assumption. reflexivity.
Qed.

Lemma filter_gt0_repeat (c : R) (n : nat) : 0 < c -> filter gt0 (repeat c n) = repeat c n.
Proof.
  intros Hc. induction n as [|n IH]; simpl; [reflexivity|].
  unfold gt0 at 1. destruct (Rlt_dec 0 c); [|contradiction].
  rewrite IH. reflexivity.
Qed.

(** ** Non-coasting samples *)

Lemma gt0_true (p : R) : gt0 p = true <-> 0 < p.
Proof.
  unfold gt0. destruct (Rlt_dec 0 p); split; intros; try assumption;
    try reflexivity; try discriminate; contradiction.
Qed.

Lemma gt0_false (p : R) : gt0 p = false <-> p <= 0.
Proof.
  unfold gt0. destruct (Rlt_dec 0 p); split; intros; try discriminate;
    try reflexivity; lra.
Qed.

Lemma filter_split_permutation {A : Type} (f : A -> bool) (xs : list A) :
  Permutation xs (filter f xs ++ filter (fun x => negb (f x)) xs).
Proof.
  induction xs as [|x xs IH]; simpl; [constructor|].
  destruct (f x); simpl.
  - constructor; assumption.
  - apply Permutation_cons_app; assumption.
Qed.

(** ** The claims on the metrics calculator *)



Lemma normalized_power_repeat (c : R) (n : nat) :
  0 <= c -> (1 <= n)%nat -> _normalized_power (repeat c n) = Returns c.
Proof.
  intros Hc Hn.
  destruct (Nat.lt_ge_cases n 30) as [Hlt|Hge].
  - rewrite normalized_power_fallback.
    + apply mean_repeat; assumption.
    + apply rolling_average_nil_iff. rewrite repeat_length. assumption.
    + apply repeat_not_nil; assumption.
  - rewrite normalized_power_rolling.
    + rewrite rolling_average_repeat.
      rewrite (map_constant (fun value => value ^ 4) (c ^ 4))
        by (intros x Hx; apply repeat_spec in Hx; subst; reflexivity).
      rewrite repeat_length, arithmetic_mean_repeat by lia.
      rewrite pow_quarter_of_pow4 by assumption. reflexivity.
    + rewrite rolling_average_repeat. apply repeat_not_nil. lia.
Qed.

Lemma noncoasting_average_repeat (c : R) (n : nat) :
  0 < c -> (1 <= n)%nat -> _noncoasting_average (repeat c n) = Returns c.
Proof.
  intros Hc Hn.
  unfold _noncoasting_average. rewrite filter_gt0_repeat by assumption.
  destruct (repeat c n) eqn:E.
  - exfalso. revert E. apply repeat_not_nil. assumption.
  - rewrite <- E. apply mean_repeat; assumption.
Qed.

(** C7.  For every power sequence, the non-coasting average is the
    arithmetic mean of exactly the samples that are strictly greater than
    0 (the sequence splits, up to order, into these and samples that are at
    most 0), and 0 when there is no such sample. *)
Theorem noncoasting_average_spec (P : list R) :
  let positive := filter gt0 P in
  (exists coasting,
      Permutation P (positive ++ coasting) /\
      Forall (fun p => 0 < p) positive /\
      Forall (fun p => p <= 0) coasting) /\
  (positive <> [] ->
     _noncoasting_average P = Returns (arithmetic_mean positive)) /\
  (Forall (fun p => p <= 0) P -> _noncoasting_average P = Returns 0).
Proof.
  intros positive. subst positive. split; [|split].
  - exists (filter (fun p => negb (gt0 p)) P). split; [|split].
    + apply filter_split_permutation.
    + apply Forall_forall. intros p Hp. apply filter_In in Hp as [_ Hp].
      apply gt0_true; assumption.
    + apply Forall_forall. intros p Hp. apply filter_In in Hp as [_ Hp].
      apply negb_true_iff in Hp. apply gt0_false; assumption.
  - intros Hne. unfold _noncoasting_average.
    destruct (filter gt0 P) eqn:E; [congruence|].
    apply mean_returns. discriminate.
  - intros Hall. unfold _noncoasting_average.
    replace (filter gt0 P) with (@nil R); [reflexivity|].
    symmetry. induction Hall as [|p ps Hp _ IH]; simpl; [reflexivity|].
    apply gt0_false in Hp. rewrite Hp. assumption.
Qed.

Lemma noncoasting_average_spec_witness :
  _noncoasting_average [0; 0] = Returns 0 /\
  _noncoasting_average [0; 200; 100]
  = Returns (arithmetic_mean (filter gt0 [0; 200; 100])).
Proof.
  split.
  - apply (noncoasting_average_spec [0; 0]).
    repeat constructor; lra.
  - apply (noncoasting_average_spec [0; 200; 100]).
    intros H.
    assert (Hin : In 200 (filter gt0 [0; 200; 100])).
    { apply filter_In. split; [simpl; auto | apply gt0_true; lra]. }
    rewrite H in Hin. destruct Hin.
Defined.

(** ** Energy *)

Lemma energy_loop (records : list Record_) (acc : R) :
  fold_left energy_step (combine records (tl records)) acc
  = acc + joules_of_pairs records.
Proof.
  revert acc. induction records as [|[tp pp] rest IH]; intros acc.
  - simpl. lra.
  - destruct rest as [|[tc pc] rest'].
    + simpl. lra.
    + change (combine ((tp, pp) :: (tc, pc) :: rest') (tl ((tp, pp) :: (tc, pc) :: rest')))
        with (((tp, pp), (tc, pc)) :: combine ((tc, pc) :: rest') (tl ((tc, pc) :: rest'))).
      cbn [fold_left]. rewrite IH.
      cbn [joules_of_pairs energy_step].
      destruct (Rle_dec _ 0); destruct (Rlt_dec 0 _); lra.
Qed.

Lemma ride_energy_joules (records : list Record_) :
  _ride_energy_kj records = joules_of_pairs records / 1000.
Proof.
  unfold _ride_energy_kj.
  destruct (Nat.ltb_spec (List.length records) 2) as [Hlt|Hge].
  - destruct records as [|[tp pp] [|r rest]]; simpl in *; try lia; lra.
  - rewrite energy_loop. lra.
Qed.

(** C2.  The total energy in kilojoules is the sum over the consecutive
    pairs of samples of [p_prev * (t_curr - t_prev)] in seconds, over the
    pairs whose time delta is strictly positive only (the others add
    nothing and nothing is raised), divided by 1000; fewer than 2 samples
    give 0; three samples of 100 W one second apart give 0.2 kJ.  This
    holds for every sample sequence, sorted by time or not. *)
Theorem ride_energy_left_hold (records : list Record_) (ta tb tc : datetime.t) :
  _ride_energy_kj records = joules_of_pairs records / 1000 /\
  ((List.length records < 2)%nat -> _ride_energy_kj records = 0) /\
  (datetime.total_seconds (datetime.sub tb ta) = 1 ->
   datetime.total_seconds (datetime.sub tc tb) = 1 ->
   _ride_energy_kj [(ta, 100); (tb, 100); (tc, 100)] = 0.2).
Proof.
  split; [apply ride_energy_joules | split].
  - intros Hlen. unfold _ride_energy_kj.
    apply Nat.ltb_lt in Hlen. rewrite Hlen. reflexivity.
  - intros Hab Hbc. rewrite ride_energy_joules. cbn [joules_of_pairs].
    rewrite Hab, Hbc.
    destruct (Rlt_dec 0 1); lra.
Qed.

Lemma one_second_t0_t1 : datetime.total_seconds (datetime.sub t1 t0) = 1.
Proof.
  unfold datetime.total_seconds.
  replace (datetime.sub t1 t0) with 1000000%Z by reflexivity. lra.
Qed.

Lemma one_second_t1_t2 : datetime.total_seconds (datetime.sub t2 t1) = 1.
Proof.
  unfold datetime.total_seconds.
  replace (datetime.sub t2 t1) with 1000000%Z by reflexivity. lra.
Qed.

Lemma ride_energy_left_hold_witness :
  _ride_energy_kj [(t0, 100)] = 0 /\ _ride_energy_kj three_samples = 0.2.
Proof.
  split.
  - apply (ride_energy_left_hold [(t0, 100)] t0 t1 t2). simpl. lia.
  - apply (ride_energy_left_hold [] t0 t1 t2).
    + apply one_second_t0_t1.
    + apply one_second_t1_t2.
Defined.

(** ** Sorting by a key *)

Section SortedFacts.
Variables (A K : Type) (key : A -> K) (leb : K -> K -> bool).

Hypothesis leb_total : forall a b, leb a b = true \/ leb b a = true.
Hypothesis leb_trans :
  forall a b c, leb a b = true -> leb b c = true -> leb a c = true.
Hypothesis leb_antisym :
  forall a b, leb a b = true -> leb b a = true -> a = b.

Let key_le (x y : A) : Prop := leb (key x) (key y) = true.

Lemma insert_sorted_permutation (x : A) (xs : list A) :
  Permutation (insert_sorted key leb x xs) (x :: xs).
Proof.
  induction xs as [|y xs IH]; simpl; [reflexivity|].
  destruct (leb (key x) (key y)); [reflexivity|].
  rewrite IH. apply perm_swap.
Qed.

Lemma sorted_permutation (xs : list A) : Permutation (sorted key leb xs) xs.
Proof.
  induction xs as [|x xs IH]; simpl; [reflexivity|].
  rewrite insert_sorted_permutation. constructor; assumption.
Qed.

Lemma insert_sorted_ascending (x : A) (xs : list A) :
  StronglySorted key_le xs -> StronglySorted key_le (insert_sorted key leb x xs).
Proof.
  induction 1 as [|y ys Hs IH Hall]; simpl.
  - constructor; constructor.
  - destruct (leb (key x) (key y)) eqn:Hxy.
    + constructor; [constructor; assumption|].
      constructor; [assumption|].
      eapply Forall_impl; [|exact Hall].
      intros z Hz. unfold key_le in *. eapply leb_trans; eassumption.
    + constructor; [assumption|].
      apply Forall_forall. intros z Hz.
      apply (Permutation_in _ (insert_sorted_permutation x ys)) in Hz.
      destruct Hz as [<-|Hz].
      * unfold key_le. destruct (leb_total (key x) (key y)); congruence.
      * rewrite Forall_forall in Hall. apply Hall; assumption.
Qed.

Lemma sorted_ascending (xs : list A) : StronglySorted key_le (sorted key leb xs).
Proof.
  induction xs as [|x xs IH]; simpl; [constructor|].
  apply insert_sorted_ascending; assumption.
Qed.

(** Two ascending arrangements of the same elements are the same list
    when elements of one key are equal. *)
Lemma ascending_unique (xs ys : list A) :
  StronglySorted key_le xs -> StronglySorted key_le ys ->
  Permutation xs ys ->
  (forall a b, In a xs -> In b xs -> key a = key b -> a = b) ->
  xs = ys.
Proof.
  intros Hxs. revert ys.
  induction Hxs as [|x xs' Hs IH Hall]; intros ys Hys Hperm Hkey.
  - apply Permutation_nil in Hperm. congruence.
  - destruct Hys as [|y ys' Hs' Hall'].
    + apply Permutation_sym, Permutation_nil in Hperm. discriminate.
    + assert (Hxy : x = y).
      { assert (Hy : In y (x :: xs'))
          by (apply (Permutation_in _ (Permutation_sym Hperm)); left; reflexivity).
        assert (Hx : In x (y :: ys'))
          by (apply (Permutation_in _ Hperm); left; reflexivity).
        destruct Hy as [Hy|Hy]; [assumption|].
        destruct Hx as [Hx|Hx]; [congruence|].
        apply Hkey; [left; reflexivity | right; assumption |].
        rewrite Forall_forall in Hall, Hall'.
        apply leb_antisym; [apply Hall | apply Hall']; assumption. }
      subst y. f_equal.
      apply IH.
      * assumption.
      * apply Permutation_cons_inv in Hperm. assumption.
      * intros a b Ha Hb. apply Hkey; right; assumption.
Qed.

Lemma sorted_of_permutation (xs ys : list A) :
  Permutation xs ys ->
  (forall a b, In a xs -> In b xs -> key a = key b -> a = b) ->
  sorted key leb xs = sorted key leb ys.
Proof.
  intros Hperm Hkey.
  apply ascending_unique.
  - apply sorted_ascending.
  - apply sorted_ascending.
  - rewrite !sorted_permutation. assumption.
  - intros a b Ha Hb. apply Hkey.
    + apply (Permutation_in _ (sorted_permutation xs)); assumption.
    + apply (Permutation_in _ (sorted_permutation xs)); assumption.
Qed.
End SortedFacts.

(** ** The order of timestamps *)

Lemma cmp_tuple_eq (a b : list Z) : datetime.cmp_tuple a b = Eq -> a = b.
Proof.
  revert b; induction a as [|x a IH]; intros [|y b]; simpl; try discriminate.
  - reflexivity.
  - destruct (Z.compare_spec x y) as [Hxy|Hxy|Hxy]; try discriminate.
    intros Hrest. subst. f_equal. apply IH; assumption.
Qed.

Lemma cmp_tuple_antisym (a b : list Z) :
  datetime.cmp_tuple b a = CompOpp (datetime.cmp_tuple a b).
Proof.
  revert b; induction a as [|x a IH]; intros [|y b]; simpl; try reflexivity.
  rewrite (Z.compare_antisym x y).
  destruct (x ?= y)%Z; simpl; [apply IH | reflexivity | reflexivity].
Qed.

Lemma cmp_tuple_trans (a b c : list Z) :
  datetime.cmp_tuple a b <> Gt -> datetime.cmp_tuple b c <> Gt ->
  datetime.cmp_tuple a c <> Gt.
Proof.
  revert b c; induction a as [|x a IH]; intros [|y b] [|z c]; simpl;
    try congruence.
  destruct (Z.compare_spec x y), (Z.compare_spec y z), (Z.compare_spec x z);
    try congruence; try lia; intros; eapply IH; eassumption.
Qed.

Lemma datetime_leb_total (a b : datetime.t) :
  datetime.leb a b = true \/ datetime.leb b a = true.
Proof.
  unfold datetime.leb, datetime.cmp.
  rewrite (cmp_tuple_antisym (datetime.fields a) (datetime.fields b)).
  destruct (datetime.cmp_tuple (datetime.fields a) (datetime.fields b));
    simpl; auto.
Qed.

Lemma datetime_leb_not_gt (a b : datetime.t) :
  datetime.leb a b = true <-> datetime.cmp a b <> Gt.
Proof.
  unfold datetime.leb. destruct (datetime.cmp a b); split; congruence.
Qed.

Lemma datetime_leb_trans (a b c : datetime.t) :
  datetime.leb a b = true -> datetime.leb b c = true -> datetime.leb a c = true.
Proof.
  rewrite !datetime_leb_not_gt. unfold datetime.cmp. apply cmp_tuple_trans.
Qed.

Lemma datetime_leb_antisym (a b : datetime.t) :
  datetime.leb a b = true -> datetime.leb b a = true -> a = b.
Proof.
  rewrite !datetime_leb_not_gt. unfold datetime.cmp.
  rewrite (cmp_tuple_antisym (datetime.fields a) (datetime.fields b)).
  intros Hab Hba.
  assert (E : datetime.cmp_tuple (datetime.fields a) (datetime.fields b) = Eq)
    by (destruct (datetime.cmp_tuple (datetime.fields a) (datetime.fields b));
        simpl in *; congruence).
  apply cmp_tuple_eq in E.
  destruct a, b. unfold datetime.fields in E. simpl in E.
  injection E as -> -> -> -> -> -> ->. reflexivity.
Qed.

(** ** The record extractor *)

Lemma extract_records_ascending (messages : list message) :
  StronglySorted by_timestamp (_extract_records messages).
Proof.
  unfold _extract_records.
  apply (sorted_ascending (@fst datetime.t R) datetime.leb
           datetime_leb_total datetime_leb_trans).
Qed.

Lemma extract_records_permutation (messages : list message) :
  Permutation (_extract_records messages) (flat_map extract_one messages).
Proof. unfold _extract_records. apply sorted_permutation. Qed.

Lemma extract_one_In (record : message) (t : datetime.t) (p : R) :
  In (t, p) (extract_one record) <->
  get_timestamp record = Some t /\
  exists v, get_power record = Some v /\ float v = p.
Proof.
  unfold extract_one.
  destruct (get_timestamp record) as [ts|]; [destruct (get_power record) as [v|]|];
    simpl; split.
  - intros [H|[]]. injection H as -> <-. eauto.
  - intros [H [v' [Hv <-]]]. left. congruence.
  - intros [].
  - intros [_ [v [Hv _]]]. discriminate.
  - intros [].
  - intros [H _]. discriminate.
Qed.

Lemma extract_one_complete (record : message) :
  extract_one record = [] <-> complete record = false.
Proof.
  unfold extract_one, complete.
  destruct (get_timestamp record), (get_power record); split;
    intros; try discriminate; reflexivity.
Qed.

Lemma extract_one_length (record : message) :
  List.length (extract_one record) = if complete record then 1%nat else 0%nat.
Proof.
  unfold extract_one, complete.
  destruct (get_timestamp record), (get_power record); reflexivity.
Qed.

Lemma flat_map_extract_complete (messages : list message) :
  flat_map extract_one (filter complete messages)
  = flat_map extract_one messages.
Proof.
  induction messages as [|m ms IH]; [reflexivity|].
  simpl. destruct (complete m) eqn:E; simpl; rewrite IH; [reflexivity|].
  apply extract_one_complete in E. rewrite E. reflexivity.
Qed.

Lemma flat_map_extract_length (messages : list message) :
  List.length (flat_map extract_one messages)
  = List.length (filter complete messages).
Proof.
  induction messages as [|m ms IH]; [reflexivity|].
  simpl. rewrite length_app, extract_one_length, IH.
  destruct (complete m); reflexivity.
Qed.

Lemma stream_a_extracted :
  _extract_records stream_a = [(t0, 100); (t0, 200); (t1, 150)].
Proof. reflexivity. Qed.

Lemma stream_b_extracted :
  _extract_records stream_b = [(t0, 200); (t0, 100); (t1, 150)].
Proof. reflexivity. Qed.

Lemma zero_seconds_t0_t0 : datetime.total_seconds (datetime.sub t0 t0) = 0.
Proof.
  unfold datetime.total_seconds.
  replace (datetime.sub t0 t0) with 0%Z by reflexivity. lra.
Qed.

Lemma stream_a_energy : _ride_energy_kj (_extract_records stream_a) = 0.2.
Proof.
  rewrite stream_a_extracted, ride_energy_joules. cbn [joules_of_pairs].
  rewrite zero_seconds_t0_t0, one_second_t0_t1.
  destruct (Rlt_dec 0 0), (Rlt_dec 0 1); lra.
Qed.

Lemma stream_b_energy : _ride_energy_kj (_extract_records stream_b) = 0.1.
Proof.
  rewrite stream_b_extracted, ride_energy_joules. cbn [joules_of_pairs].
  rewrite zero_seconds_t0_t0, one_second_t0_t1.
  destruct (Rlt_dec 0 0), (Rlt_dec 0 1); lra.
Qed.

(** C5, as stated, fails: [stream_b] is [stream_a] with its first two
    messages exchanged; they have the same timestamp and different powers,
    the sort keeps them in the order of the input, and the energy of the
    two outputs differs (0.2 kJ and 0.1 kJ). *)
Lemma extract_records_order_dependent :
  Permutation stream_a stream_b /\
  _extract_records stream_a <> _extract_records stream_b /\
  _ride_energy_kj (_extract_records stream_a)
  <> _ride_energy_kj (_extract_records stream_b).
Proof.
  split; [|split].
  - apply perm_swap.
  - rewrite stream_a_extracted, stream_b_extracted.
    intros H. injection H as H _. lra.
  - rewrite stream_a_energy, stream_b_energy. lra.
Qed.

(** C5, amended.  For every sequence of decoded messages and every
    permutation of it, the output of the extractor is sorted ascending by
    timestamp, holds exactly the samples of the messages that have both a
    timestamp and a power, one sample for each such message, as often as
    it occurs (the others are dropped), and is a permutation of the output
    for the permuted sequence; when the samples of one timestamp are equal
    (in particular when no two samples share a timestamp) the two outputs
    are identical, and so is the total energy computed from them. *)
Theorem extract_records_reordering (messages messages' : list message) :
  Permutation messages messages' ->
  let out := _extract_records messages in
  let out' := _extract_records messages' in
  StronglySorted by_timestamp out /\
  Permutation out
    (flat_map
       (fun m : message =>
          match get_timestamp m, get_power m with
          | Some timestamp, Some power => [(timestamp, float power)]
          | _, _ => []
          end)
       messages) /\
  List.length out = List.length (filter complete messages) /\
  (forall t p, In (t, p) out <->
     exists m, In m messages /\ get_timestamp m = Some t /\
               exists v, get_power m = Some v /\ float v = p) /\
  Permutation out out' /\
  ((forall a b, In a out -> In b out -> fst a = fst b -> a = b) ->
   out = out' /\ _ride_energy_kj out = _ride_energy_kj out').
Proof.
  intros Hperm out out'. subst out out'.
  split; [apply extract_records_ascending|].
  split; [exact (extract_records_permutation messages)|].
  split.
  { rewrite (Permutation_length (extract_records_permutation messages)).
    apply flat_map_extract_length. }
  repeat split.
  - intros Hin.
    apply (Permutation_in _ (extract_records_permutation messages)) in Hin.
    apply in_flat_map in Hin as [m [Hm Hin]].
    apply extract_one_In in Hin. exists m. tauto.
  - intros [m [Hm Hin]].
    apply (Permutation_in _ (Permutation_sym (extract_records_permutation messages))).
    apply in_flat_map. exists m. split; [assumption|].
    apply extract_one_In. assumption.
  - rewrite !extract_records_permutation.
    apply Permutation_flat_map. assumption.
  - apply (sorted_of_permutation (@fst datetime.t R) datetime.leb
             datetime_leb_total datetime_leb_trans datetime_leb_antisym).
    + apply Permutation_flat_map. assumption.
    + intros a b Ha Hb. apply H.
      * apply (Permutation_in _ (Permutation_sym (extract_records_permutation messages))).
        assumption.
      * apply (Permutation_in _ (Permutation_sym (extract_records_permutation messages))).
        assumption.
  - f_equal.
    apply (sorted_of_permutation (@fst datetime.t R) datetime.leb
             datetime_leb_total datetime_leb_trans datetime_leb_antisym).
    + apply Permutation_flat_map. assumption.
    + intros a b Ha Hb. apply H.
      * apply (Permutation_in _ (Permutation_sym (extract_records_permutation messages))).
        assumption.
      * apply (Permutation_in _ (Permutation_sym (extract_records_permutation messages))).
        assumption.
Qed.

Lemma extract_records_reordering_witness :
  _extract_records [msg t1 150; msg t0 100]
  = _extract_records [msg t0 100; msg t1 150] /\
  _ride_energy_kj (_extract_records [msg t1 150; msg t0 100])
  = _ride_energy_kj (_extract_records [msg t0 100; msg t1 150]).
Proof.
  apply (extract_records_reordering (messages := [msg t1 150; msg t0 100])
           (messages' := [msg t0 100; msg t1 150])).
  - apply perm_swap.
  - replace (_extract_records [msg t1 150; msg t0 100])
      with [(t0, 100); (t1, 150)] by reflexivity.
    intros a b [<-|[<-|[]]] [<-|[<-|[]]]; simpl; intros E;
      try reflexivity; discriminate E.
Defined.

(** ** The ride analyzer *)

Lemma split_map {A B : Type} (xs : list (A * B)) :
  split xs = (map fst xs, map snd xs).
Proof.
  induction xs as [|[a b] xs IH]; simpl; [reflexivity|].
  rewrite IH. reflexivity.
Qed.

Lemma normalized_power_returns (P : list R) :
  exists v, _normalized_power P = Returns v.
Proof.
  destruct (_rolling_average P 30) as [|r rs] eqn:E.
  - destruct P as [|p ps].
    + exists 0. reflexivity.
    + rewrite normalized_power_fallback by (assumption || discriminate).
      rewrite mean_returns by discriminate. eauto.
  - rewrite normalized_power_rolling by (rewrite E; discriminate). eauto.
Qed.

Lemma noncoasting_average_returns (P : list R) :
  exists v, _noncoasting_average P = Returns v.
Proof.
  unfold _noncoasting_average.
  destruct (filter gt0 P) as [|p ps]; [eauto|].
  rewrite mean_returns by discriminate. eauto.
Qed.

Lemma analyze_ride_empty (fit_path : string) (messages : list message) :
  _extract_records messages = [] -> analyze_ride fit_path messages = Returns None.
Proof. intros E. unfold analyze_ride. rewrite E. reflexivity. Qed.

Lemma analyze_ride_samples (fit_path : string) (messages : list message)
    (r : Record_) (rest : list Record_) :
  _extract_records messages = r :: rest ->
  exists np nc,
    _normalized_power (map snd (r :: rest)) = Returns np /\
    _noncoasting_average (map snd (r :: rest)) = Returns nc /\
    analyze_ride fit_path messages
    = Returns (Some {|
        Ride.file := basename fit_path;
        Ride.start_time := fst r;
        Ride.avg_watts := arithmetic_mean (map snd (r :: rest));
        Ride.avg_np := np;
        Ride.avg_noncoasting_watts := nc;
        Ride.total_kj := _ride_energy_kj (r :: rest)
      |}).
Proof.
  intros E.
  destruct (normalized_power_returns (map snd (r :: rest))) as [np Hnp].
  destruct (noncoasting_average_returns (map snd (r :: rest))) as [nc Hnc].
  exists np, nc. split; [assumption | split; [assumption|]].
  unfold analyze_ride. rewrite E.
  unfold unzip. rewrite split_map. cbn [bind].
  rewrite mean_returns by discriminate. cbn [bind].
  unfold subscript. cbn [map nth_error bind].
  cbn [map] in Hnp, Hnc. rewrite Hnp, Hnc. reflexivity.
Qed.




(** ** Week keys *)

Lemma week_key_eqb_eq (a b : WeekKey) : week_key_eqb a b = true <-> a = b.
Proof.
  destruct a as [ya wa], b as [yb wb]. unfold week_key_eqb. simpl.
  rewrite andb_true_iff, !Z.eqb_eq. split.
  - intros [-> ->]. reflexivity.
  - intros H. injection H as -> ->. split; reflexivity.
Qed.

Lemma week_key_eqb_refl (a : WeekKey) : week_key_eqb a a = true.
Proof. apply week_key_eqb_eq. reflexivity. Qed.

Lemma week_key_eqb_neq (a b : WeekKey) : week_key_eqb a b = false <-> a <> b.
Proof.
  rewrite <- week_key_eqb_eq. destruct (week_key_eqb a b); split; congruence.
Qed.

Lemma week_key_leb_total (a b : WeekKey) :
  week_key_leb a b = true \/ week_key_leb b a = true.
Proof.
  unfold week_key_leb.
  destruct (Z.compare_spec (fst a) (fst b)), (Z.compare_spec (fst b) (fst a));
    try lia; auto.
Qed.

Lemma week_key_eq_dec (a b : WeekKey) : {a = b} + {a <> b}.
Proof. decide equality; apply Z.eq_dec. Qed.

Lemma week_key_leb_trans (a b c : WeekKey) :
  week_key_leb a b = true -> week_key_leb b c = true -> week_key_leb a c = true.
Proof.
  unfold week_key_leb.
  destruct (Z.compare_spec (fst a) (fst b)), (Z.compare_spec (fst b) (fst c)),
    (Z.compare_spec (fst a) (fst c)); try lia; try congruence.
Qed.

Lemma week_key_leb_antisym (a b : WeekKey) :
  week_key_leb a b = true -> week_key_leb b a = true -> a = b.
Proof.
  destruct a as [ya wa], b as [yb wb]. unfold week_key_leb. simpl.
  destruct (Z.compare_spec ya yb), (Z.compare_spec yb ya);
    try lia; try congruence.
  rewrite !Z.leb_le. intros. f_equal; lia.
Qed.

Lemma week_key_leb_lt (a b : WeekKey) :
  week_key_leb a b = true -> a <> b -> week_key_lt a b.
Proof.
  destruct a as [ya wa], b as [yb wb]. unfold week_key_leb, week_key_lt. simpl.
  destruct (Z.compare_spec ya yb); try congruence.
  - rewrite Z.leb_le. intros Hle Hne. right. split; [assumption|].
    assert (wa <> wb) by congruence. lia.
  - intros _ _. left. assumption.
Qed.

(** ** Grouping by week *)

Lemma rides_of_week_snoc (k : WeekKey) (rides : list RideMetrics) (r : RideMetrics) :
  rides_of_week k (rides ++ [r])
  = rides_of_week k rides ++ (if week_key_eqb (week_key_of r) k then [r] else []).
Proof. unfold rides_of_week. rewrite filter_app. reflexivity. Qed.

Lemma rides_of_week_In (k : WeekKey) (rides : list RideMetrics) (r : RideMetrics) :
  In r (rides_of_week k rides) <-> In r rides /\ week_key_of r = k.
Proof.
  unfold rides_of_week. rewrite filter_In, week_key_eqb_eq. reflexivity.
Qed.

Lemma group_by_week_snoc (rides : list RideMetrics) (r : RideMetrics) :
  group_by_week (rides ++ [r])
  = dict_append (group_by_week rides) (week_key_of r) r.
Proof. unfold group_by_week. rewrite fold_left_app. reflexivity. Qed.

Lemma dict_append_keys (grouped : list (WeekKey * list RideMetrics))
    (k : WeekKey) (r : RideMetrics) :
  (In k (map fst grouped) ->
   map fst (dict_append grouped k r) = map fst grouped) /\
  (~ In k (map fst grouped) ->
   map fst (dict_append grouped k r) = map fst grouped ++ [k]).
Proof.
  induction grouped as [|[k0 g0] rest [IHin IHout]]; simpl.
  - split; [intros [] | reflexivity].
  - destruct (week_key_eqb k0 k) eqn:E; simpl.
    + apply week_key_eqb_eq in E. subst k0. split; [reflexivity|].
      intros Hn. exfalso. apply Hn. left. reflexivity.
    + apply week_key_eqb_neq in E. split.
      * intros [Hk|Hk]; [congruence|]. rewrite IHin by assumption. reflexivity.
      * intros Hn. rewrite IHout; [reflexivity|].
        intros Hk. apply Hn. right. assumption.
Qed.

Lemma dict_append_In (grouped : list (WeekKey * list RideMetrics))
    (k : WeekKey) (r : RideMetrics) (k' : WeekKey) (g' : list RideMetrics) :
  NoDup (map fst grouped) ->
  In (k', g') (dict_append grouped k r) ->
  (k' <> k /\ In (k', g') grouped) \/
  (k' = k /\ exists g, In (k, g) grouped /\ g' = g ++ [r]) \/
  (k' = k /\ ~ In k (map fst grouped) /\ g' = [r]).
Proof.
  induction grouped as [|[k0 g0] rest IH]; simpl; intros Hnd Hin.
  - destruct Hin as [Hin|[]]. injection Hin as <- <-.
    right. right. auto.
  - inversion Hnd as [|? ? Hk0 Hnd']; subst.
    destruct (week_key_eqb k0 k) eqn:E.
    + apply week_key_eqb_eq in E. subst k0.
      destruct Hin as [Hin|Hin].
      * injection Hin as <- <-. right. left. split; [reflexivity|].
        exists g0. split; [left|]; reflexivity.
      * left. split; [|right; assumption].
        intros ->. apply Hk0. apply in_map_iff. exists (k, g'). auto.
    + apply week_key_eqb_neq in E.
      destruct Hin as [Hin|Hin].
      * injection Hin as <- <-. left. split; [assumption | left; reflexivity].
      * destruct (IH Hnd' Hin) as [[Hne Hr]|[[-> [g [Hg ->]]]|[-> [Hn ->]]]].
        -- left. split; [assumption | right; assumption].
        -- right. left. split; [reflexivity|]. exists g. split; [right; assumption | reflexivity].
        -- right. right. split; [reflexivity|]. split; [|reflexivity].
           intros [Hk|Hk]; [congruence | contradiction].
Qed.

Lemma group_by_week_invariant (rides : list RideMetrics) :
  NoDup (map fst (group_by_week rides)) /\
  (forall k g, In (k, g) (group_by_week rides) ->
     g = rides_of_week k rides /\ g <> []) /\
  (forall r, In r rides -> In (week_key_of r) (map fst (group_by_week rides))).
Proof.
  induction rides as [|r rides IH] using rev_ind.
  - split; [constructor | split]; [intros k g [] | intros r []].
  - destruct IH as (Hnd & Hgroups & Hcover).
    rewrite group_by_week_snoc.
    destruct (dict_append_keys (group_by_week rides) (week_key_of r) r)
      as [Hkin Hkout].
    split; [|split].
    + destruct (in_dec week_key_eq_dec (week_key_of r)
                  (map fst (group_by_week rides))) as [Hin|Hout].
      * rewrite Hkin by assumption. assumption.
      * rewrite Hkout by assumption.
        apply (Permutation_NoDup (l := week_key_of r :: map fst (group_by_week rides))).
        -- apply Permutation_cons_append.
        -- constructor; assumption.
    + intros k g Hin. rewrite rides_of_week_snoc.
      apply dict_append_In in Hin; [|assumption].
      destruct Hin as [[Hne Hin]|[[-> [g0 [Hin ->]]]|[-> [Hout ->]]]].
      * destruct (Hgroups k g Hin) as [Hg Hnil].
        assert (E : week_key_eqb (week_key_of r) k = false)
          by (apply week_key_eqb_neq; congruence).
        rewrite E, app_nil_r. split; assumption.
      * destruct (Hgroups _ _ Hin) as [Hg _].
        rewrite week_key_eqb_refl, <- Hg. split; [reflexivity|].
        destruct g0; discriminate.
      * rewrite week_key_eqb_refl.
        replace (rides_of_week (week_key_of r) rides) with (@nil RideMetrics).
        -- split; [reflexivity | discriminate].
        -- symmetry.
           destruct (rides_of_week (week_key_of r) rides) as [|x xs] eqn:E;
             [reflexivity|].
           exfalso. apply Hout.
           assert (Hx : In x (rides_of_week (week_key_of r) rides))
             by (rewrite E; left; reflexivity).
           apply rides_of_week_In in Hx as [Hx Hk].
           rewrite <- Hk. apply Hcover. assumption.
    + intros x Hx. apply in_app_or in Hx.
      assert (Hsub : forall k, In k (map fst (group_by_week rides)) ->
                In k (map fst (dict_append (group_by_week rides) (week_key_of r) r))).
      { intros k Hk.
        destruct (in_dec week_key_eq_dec (week_key_of r)
                    (map fst (group_by_week rides))) as [Hin|Hout].
        - rewrite Hkin by assumption. assumption.
        - rewrite Hkout by assumption. apply in_or_app. left. assumption. }
      destruct Hx as [Hx|[<-|[]]].
      * apply Hsub, Hcover. assumption.
      * destruct (in_dec week_key_eq_dec (week_key_of r)
                    (map fst (group_by_week rides))) as [Hin|Hout].
        -- apply Hsub. assumption.
        -- rewrite Hkout by assumption. apply in_or_app. right. left. reflexivity.
Qed.

(** ** The label of a week *)

Lemma to_int_proper (n : Z) : Z.to_int n <> Pos Nil /\ Z.to_int n <> Neg Nil.
Proof.
  destruct n as [|p|p]; simpl; split; try discriminate;
    intros E; injection E as E; revert E; apply DecimalPos.Unsigned.to_uint_nonnil.
Qed.

Lemma format_d_inj (a b : Z) : format_d a = format_d b -> a = b.
Proof.
  unfold format_d. intros E.
  apply (f_equal NilZero.int_of_string) in E.
  destruct (to_int_proper a) as [Ha Ha'], (to_int_proper b) as [Hb Hb'].
  rewrite !NilZero.isi in E by assumption.
  injection E as E. apply DecimalZ.to_int_inj. assumption.
Qed.

Lemma format_d_leading_zero (b : Z) (s : string) :
  format_d b = String "0" s -> s = EmptyString.
Proof.
  unfold format_d.
  pose proof (DecimalZ.to_of (Z.to_int b)) as Hnorm.
  rewrite DecimalZ.of_to in Hnorm.
  destruct (Z.to_int b) as [u|u]; simpl; [|discriminate].
  destruct u as [|u|u|u|u|u|u|u|u|u|u]; simpl; try discriminate.
  intros E. injection E as E. subst s.
  simpl in Hnorm. injection Hnorm as Hnorm.
  rewrite DecimalFacts.unorm_D0 in Hnorm. unfold unorm in Hnorm.
  destruct (nzhead u) eqn:Hnz;
    try (exfalso; symmetry in Hnorm; rewrite <- Hnz in Hnorm;
         revert Hnorm; apply DecimalFacts.nzhead_nonzero).
  injection Hnorm as ->. reflexivity.
Qed.

Lemma format_02d_inj (a b : Z) : format_02d a = format_02d b -> a = b.
Proof.
  unfold format_02d.
  destruct (Nat.ltb_spec (String.length (format_d a)) 2) as [Ha|Ha],
           (Nat.ltb_spec (String.length (format_d b)) 2) as [Hb|Hb];
    simpl; intros E.
  - injection E as E. apply format_d_inj. assumption.
  - symmetry in E. apply format_d_leading_zero in E as E'.
    rewrite E' in E.
    apply (f_equal String.length) in E. simpl in E. lia.
  - apply format_d_leading_zero in E as E'.
    rewrite E' in E.
    apply (f_equal String.length) in E. simpl in E. lia.
  - apply format_d_inj. assumption.
Qed.

Lemma digits_free_of_W (d : uint) : free_of "W" (NilEmpty.string_of_uint d).
Proof.
  induction d; simpl; try (split; [discriminate | assumption]); exact I.
Qed.

Lemma format_d_free_of_W (n : Z) : free_of "W" (format_d n).
Proof.
  unfold format_d. destruct (Z.to_int n) as [u|u]; simpl.
  - destruct u; try apply digits_free_of_W. simpl. split; [discriminate | exact I].
  - split; [discriminate|].
    destruct u; try apply digits_free_of_W. simpl. split; [discriminate | exact I].
Qed.

Lemma append_separator_inj (s1 s2 r1 r2 : string) :
  free_of "W" s1 -> free_of "W" s2 ->
  (s1 ++ "-W" ++ r1 = s2 ++ "-W" ++ r2)%string -> s1 = s2 /\ r1 = r2.
Proof.
  revert s2. induction s1 as [|a s1 IH]; intros [|b s2]; simpl.
  - intros _ _ E. injection E as E. auto.
  - intros _ [Hb Hs2] E. injection E as <- E.
    destruct s2 as [|c s2]; simpl in *.
    + discriminate E.
    + injection E as E _. destruct Hs2 as [Hc _]. congruence.
  - intros [Ha Hs1] _ E. injection E as -> E.
    destruct s1 as [|c s1]; simpl in *.
    + discriminate E.
    + injection E as E _. destruct Hs1 as [Hc _]. congruence.
  - intros [Ha Hs1] [Hb Hs2] E. injection E as -> E.
    destruct (IH s2 Hs1 Hs2 E) as [-> ->]. auto.
Qed.

Lemma week_label_inj (a b : WeekKey) : week_label a = week_label b -> a = b.
Proof.
  destruct a as [ya wa], b as [yb wb]. unfold week_label. simpl fst. simpl snd.
  intros E. apply append_separator_inj in E as [Ey Ew];
    try apply format_d_free_of_W.
  apply format_d_inj in Ey. apply format_02d_inj in Ew. congruence.
Qed.

Lemma NoDup_map_injective {A B : Type} (f : A -> B) (xs : list A) :
  (forall a b, f a = f b -> a = b) -> NoDup xs -> NoDup (map f xs).
Proof.
  intros Hinj. induction 1 as [|x xs Hx Hnd IH]; simpl; constructor.
  - intros Hin. apply in_map_iff in Hin as [y [Hy Hin]].
    apply Hinj in Hy. subst y. contradiction.
  - assumption.
Qed.

(** ** The rows of the weeks *)

Lemma mapM_returns {A B : Type} (f : A -> outcome B) (g : A -> B) (xs : list A) :
  (forall x, In x xs -> f x = Returns (g x)) -> mapM f xs = Returns (map g xs).
Proof.
  induction xs as [|x xs IH]; intros Hf; simpl; [reflexivity|].
  rewrite Hf by (left; reflexivity). simpl.
  rewrite IH by (intros y Hy; apply Hf; right; assumption).
  reflexivity.
Qed.

Arguments mapM_returns {A B} f g xs _.

Lemma _mean_returns (xs : list R) :
  xs <> [] -> _mean xs = Returns (arithmetic_mean xs).
Proof.
  intros Hne. destruct xs as [|x xs]; [congruence|].
  unfold _mean. apply mean_returns. discriminate.
Qed.

Lemma map_not_nil {A B : Type} (f : A -> B) (xs : list A) :
  xs <> [] -> map f xs <> [].
Proof. destruct xs; [congruence | discriminate]. Qed.

Lemma summarize_week_group (rides : list RideMetrics) (k : WeekKey) :
  rides_of_week k rides <> [] ->
  summarize_week k (rides_of_week k rides) = Returns (row_of_week rides k).
Proof.
  intros Hne. unfold summarize_week.
  rewrite !_mean_returns by (apply map_not_nil; assumption).
  simpl. rewrite sum_total. reflexivity.
Qed.

Lemma ascending_keys_strict (items : list (WeekKey * list RideMetrics)) :
  StronglySorted (fun a b => week_key_leb (fst a) (fst b) = true) items ->
  NoDup (map fst items) ->
  StronglySorted week_key_lt (map fst items).
Proof.
  induction 1 as [|item items Hs IH Hall]; simpl; intros Hnd; [constructor|].
  inversion Hnd as [|? ? Hnotin Hnd']; subst.
  constructor; [apply IH; assumption|].
  apply Forall_forall. intros k Hk.
  apply in_map_iff in Hk as [other [<- Hother]].
  apply week_key_leb_lt.
  - rewrite Forall_forall in Hall. apply Hall. assumption.
  - intros E. apply Hnotin. rewrite E. apply in_map. assumption.
Qed.

Lemma sorted_items_permutation (grouped : list (WeekKey * list RideMetrics)) :
  Permutation (sorted_items grouped) grouped.
Proof. unfold sorted_items. apply sorted_permutation. Qed.

Lemma week_keys_ascending (rides : list RideMetrics) :
  StronglySorted week_key_lt (week_keys rides).
Proof.
  unfold week_keys. apply ascending_keys_strict.
  - unfold sorted_items.
    apply (sorted_ascending (@fst WeekKey (list RideMetrics)) week_key_leb
             week_key_leb_total week_key_leb_trans).
  - apply (Permutation_NoDup (l := map fst (group_by_week rides))).
    + apply Permutation_map. symmetry. apply sorted_items_permutation.
    + apply group_by_week_invariant.
Qed.

Lemma week_keys_present (rides : list RideMetrics) (k : WeekKey) :
  In k (week_keys rides) <-> exists r, In r rides /\ week_key_of r = k.
Proof.
  destruct (group_by_week_invariant rides) as (_ & Hgroups & Hcover).
  unfold week_keys. split.
  - intros Hk. apply in_map_iff in Hk as [[k' g] [<- Hin]]. simpl.
    apply (Permutation_in _ (sorted_items_permutation _)) in Hin.
    destruct (Hgroups _ _ Hin) as [Hg Hne].
    destruct g as [|r g']; [congruence|].
    exists r. apply rides_of_week_In. rewrite <- Hg. left. reflexivity.
  - intros [r [Hr <-]].
    apply (Permutation_in _ (Permutation_map fst
             (Permutation_sym (sorted_items_permutation (group_by_week rides))))).
    apply Hcover. assumption.
Qed.

Lemma week_keys_nodup (rides : list RideMetrics) : NoDup (week_keys rides).
Proof.
  unfold week_keys.
  apply (Permutation_NoDup (l := map fst (group_by_week rides))).
  - apply Permutation_map. symmetry. apply sorted_items_permutation.
  - apply group_by_week_invariant.
Qed.

Lemma week_group_not_nil (rides : list RideMetrics) (k : WeekKey) :
  In k (week_keys rides) -> rides_of_week k rides <> [].
Proof.
  intros Hk. apply week_keys_present in Hk as [r Hr].
  apply rides_of_week_In in Hr. intros E. rewrite E in Hr. destruct Hr.
Qed.

Lemma weekly_summaries_rows (rides : list RideMetrics) :
  weekly_summaries rides = Returns (map (row_of_week rides) (week_keys rides)).
Proof.
  destruct (group_by_week_invariant rides) as (_ & Hgroups & _).
  unfold weekly_summaries, week_keys. rewrite map_map.
  apply mapM_returns. intros [k g] Hin. simpl.
  apply (Permutation_in _ (sorted_items_permutation _)) in Hin.
  destruct (Hgroups _ _ Hin) as [-> Hne].
  apply summarize_week_group. assumption.
Qed.

(** ** The groups are a partition of the rides *)

Lemma concat_groups_cons (k0 : WeekKey) (r : RideMetrics)
    (G : WeekKey -> list RideMetrics) (keys : list WeekKey) :
  NoDup keys ->
  let G' := fun k => if week_key_eqb k0 k then r :: G k else G k in
  (In k0 keys -> Permutation (concat (map G' keys)) (r :: concat (map G keys))) /\
  (~ In k0 keys -> concat (map G' keys) = concat (map G keys)).
Proof.
  intros Hnd G'. induction Hnd as [|k keys Hk Hnd [IHin IHout]]; simpl.
  - split; [intros [] | reflexivity].
  - unfold G' at 1 3. destruct (week_key_eqb k0 k) eqn:E.
    + apply week_key_eqb_eq in E. subst k0. split.
      * intros _. rewrite IHout by assumption. reflexivity.
      * intros Hn. exfalso. apply Hn. left. reflexivity.
    + apply week_key_eqb_neq in E. split.
      * intros [Hin|Hin]; [congruence|].
        rewrite IHin by assumption. symmetry. apply Permutation_middle.
      * intros Hn. rewrite IHout; [reflexivity|].
        intros Hin. apply Hn. right. assumption.
Qed.

Lemma concat_nil_groups {A B : Type} (keys : list A) :
  concat (map (fun _ : A => @nil B) keys) = [].
Proof. induction keys; simpl; [reflexivity | assumption]. Qed.

Lemma groups_partition (keys : list WeekKey) (rides : list RideMetrics) :
  NoDup keys ->
  (forall r, In r rides -> In (week_key_of r) keys) ->
  Permutation (concat (map (fun k => rides_of_week k rides) keys)) rides.
Proof.
  intros Hnd. induction rides as [|r rides IH]; intros Hcover.
  - unfold rides_of_week. simpl. rewrite concat_nil_groups. constructor.
  - destruct (concat_groups_cons (week_key_of r) r
                (fun k => rides_of_week k rides) Hnd) as [Hin _].
    unfold rides_of_week in *. simpl filter.
    rewrite Hin by (apply Hcover; left; reflexivity).
    constructor. apply IH. intros x Hx. apply Hcover. right. assumption.
Qed.

Lemma total_permutation (xs ys : list R) :
  Permutation xs ys -> total xs = total ys.
Proof.
  induction 1; simpl; lra.
Qed.


Lemma week_keys_partition (rides : list RideMetrics) :
  Permutation (concat (map (fun k => rides_of_week k rides) (week_keys rides)))
    rides.
Proof.
  apply groups_partition.
  - apply week_keys_nodup.
  - intros r Hr. apply week_keys_present. exists r. auto.
Qed.

(** ** The claims on the weekly aggregator *)

(** C3.  The aggregator groups the rides by the (ISO year, ISO week) pair
    of their start timestamps, compared exactly; it emits one row for each
    pair that occurs, in ascending order of (ISO year, ISO week); the row
    of a week holds the arithmetic means of [avg_watts], [avg_np] and
    [avg_noncoasting_watts] over the rides of the week, the sum of their
    [total_kj], their number as [ride_count], and the label
    "{isoyear}-W{isoweek:02d}". *)
Theorem weekly_summaries_spec (rides : list RideMetrics) :
  exists keys : list WeekKey,
    StronglySorted week_key_lt keys /\
    (forall k, In k keys <->
       exists r, In r rides /\
         let iso := datetime.isocalendar (Ride.start_time r) in
         (fst (fst iso), snd (fst iso)) = k) /\
    (forall k r, In r (rides_of_week k rides) <->
       In r rides /\
       let iso := datetime.isocalendar (Ride.start_time r) in
       (fst (fst iso), snd (fst iso)) = k) /\
    weekly_summaries rides
    = Returns
        (map (fun k =>
                let group := rides_of_week k rides in
                {| Summary.week :=
                     (format_d (fst k) ++ "-W" ++ format_02d (snd k))%string;
                   Summary.avg_watts := arithmetic_mean (map Ride.avg_watts group);
                   Summary.avg_np := arithmetic_mean (map Ride.avg_np group);
                   Summary.avg_noncoasting_watts :=
                     arithmetic_mean (map Ride.avg_noncoasting_watts group);
                   Summary.ride_count := List.length group;
                   Summary.total_kj := total (map Ride.total_kj group) |})
             keys) /\
    week_label (2024, 5)%Z = "2024-W05"%string.
Proof.
  exists (week_keys rides). split; [apply week_keys_ascending|].
  split; [apply week_keys_present|].
  split; [intros k r; apply rides_of_week_In|].
  split; [apply weekly_summaries_rows | reflexivity].
Qed.

(** C8.  Every emitted row has [ride_count >= 1], and there is exactly one
    row for each distinct week key among the rides: the rows are, one for
    one, the rows of the distinct keys, and no two rows have the same week
    label. *)
Theorem weekly_rows_one_per_week (rides : list RideMetrics) :
  exists (keys : list WeekKey) (rows : list Summary.t),
    weekly_summaries rides = Returns rows /\
    Forall (fun row => (1 <= Summary.ride_count row)%nat) rows /\
    NoDup keys /\
    (forall k, In k keys <-> exists r, In r rides /\ week_key_of r = k) /\
    Forall2 (fun k row =>
               Summary.week row = week_label k /\
               Summary.ride_count row = List.length (rides_of_week k rides))
            keys rows /\
    NoDup (map Summary.week rows).
Proof.
  exists (week_keys rides), (map (row_of_week rides) (week_keys rides)).
  split; [apply weekly_summaries_rows|].
  split.
  - apply Forall_forall. intros row Hrow.
    apply in_map_iff in Hrow as [k [<- Hk]]. simpl.
    apply week_group_not_nil in Hk.
    destruct (rides_of_week k rides); [congruence | simpl; lia].
  - split; [apply week_keys_nodup|].
    split; [apply week_keys_present|].
    split.
    + induction (week_keys rides) as [|k ks IH]; simpl; constructor.
      * split; reflexivity.
      * assumption.
    + rewrite map_map. simpl.
      apply NoDup_map_injective; [exact week_label_inj | apply week_keys_nodup].
Qed.

(** C10, as stated, fails: for a ride of 0.1 kJ in one week and rides
    of 0.2 kJ and 0.7 kJ in the next, the [total_kj] of the rows are 0.1 and
    0.8999999999999999 in binary64; added up as floats they give
    0.9999999999999999 where the rides give 1.0, and without rounding the
    two sums differ as well. *)
Lemma total_kj_sums_differ :
  PrimFloat.eqb (B64.sum (B64.total_kj_of_rows B64.three_rides))
                (B64.sum (map snd B64.three_rides)) = false /\
  ~ QArith_base.Qeq (B64.exact_sum (B64.total_kj_of_rows B64.three_rides))
                    (B64.exact_sum (map snd B64.three_rides)).
Proof.
  split.
  - vm_compute. reflexivity.
  - intros H. vm_compute in H. discriminate H.
Qed.

(** C10, amended.  The week groups are a partition of the rides: put
    together they are the rides up to order, and a ride is in the group of
    one key only; so the [ride_count] of the rows add up to the number of
    rides.  The [total_kj] of a row is the sum of the [total_kj] of the
    rides of its week, added in the order of the input. *)
Theorem weekly_grouping_partition (rides : list RideMetrics) :
  exists (keys : list WeekKey) (rows : list Summary.t),
    weekly_summaries rides = Returns rows /\
    NoDup keys /\
    Permutation (concat (map (fun k => rides_of_week k rides) keys)) rides /\
    (forall r k k', In r (rides_of_week k rides) ->
                    In r (rides_of_week k' rides) -> k = k') /\
    map Summary.ride_count rows
    = map (fun k => List.length (rides_of_week k rides)) keys /\
    list_sum (map Summary.ride_count rows) = List.length rides /\
    map Summary.total_kj rows
    = map (fun k => sum (map Ride.total_kj (rides_of_week k rides))) keys.
Proof.
  exists (week_keys rides), (map (row_of_week rides) (week_keys rides)).
  split; [apply weekly_summaries_rows|].
  split; [apply week_keys_nodup|].
  split; [apply week_keys_partition|].
  split.
  - intros r k k' Hk Hk'.
    apply rides_of_week_In in Hk as [_ Hk], Hk' as [_ Hk']. congruence.
  - rewrite !map_map. simpl. split; [reflexivity|]. split.
    + rewrite <- (Permutation_length (week_keys_partition rides)).
      rewrite length_concat, map_map. reflexivity.
    + apply map_ext. intros k. symmetry. apply sum_total.
Qed.

(** ** The examples of the specification *)

(** Three samples of 100 W one second apart, decoded in any order of the
    fields and with a message that has no power in between. *)
Example analyze_three_samples :
  analyze_ride "data/2024-01-29.fit"
    [msg t0 100; [timestamp_field (Some t1)]; msg t1 100; msg t2 100]
  = Returns (Some (Ride.make "2024-01-29.fit" t0 100 100 100 0.2)).
Proof.
  assert (E : _extract_records
                [msg t0 100; [timestamp_field (Some t1)]; msg t1 100; msg t2 100]
              = three_samples) by reflexivity.
  destruct (analyze_ride_samples "data/2024-01-29.fit" _ E)
    as (np & nc & Hnp & Hnc & ->).
  change (map snd ((t0, 100) :: [(t1, 100); (t2, 100)])) with (repeat 100 3) in *.
  rewrite normalized_power_fallback in Hnp
    by (reflexivity || discriminate).
  rewrite mean_repeat in Hnp by lia.
  unfold _noncoasting_average in Hnc.
  rewrite filter_gt0_repeat in Hnc by lra.
  change (match repeat 100 3 with [] => Returns 0 | _ :: _ => mean (repeat 100 3) end)
    with (mean (repeat 100 3)) in Hnc.
  rewrite mean_repeat in Hnc by lia.
  injection Hnp as <-. injection Hnc as <-.
  rewrite arithmetic_mean_repeat by lia.
  change ((t0, 100) :: [(t1, 100); (t2, 100)]) with three_samples.
  rewrite ride_energy_joules. unfold three_samples. cbn [joules_of_pairs].
  rewrite one_second_t0_t1, one_second_t1_t2.
  destruct (Rlt_dec 0 1); [|lra].
  do 3 f_equal. lra.
Qed.

(** A file whose messages carry no power gives no ride, and the run goes
    on with the other files. *)
Example directory_with_an_empty_ride :
  collect_rides
    [("data/a.fit"%string, [[timestamp_field (Some t0)]; [other_field "cadence"]]);
     ("data/b.fit"%string, [])]
  = Returns [].
Proof. reflexivity. Qed.


(** Two rides of ISO week 2024-W05, one in January and one in February. *)
Example weekly_row_2024_W05 :
  weekly_summaries [ride_w05_a; ride_w05_b]
  = Returns [Summary.make "2024-W05" 160 165 170 2 650].
Proof.
  rewrite weekly_summaries_rows.
  replace (week_keys [ride_w05_a; ride_w05_b]) with [(2024, 5)%Z] by reflexivity.
  cbn [map]. unfold row_of_week.
  replace (rides_of_week (2024, 5)%Z [ride_w05_a; ride_w05_b])
    with [ride_w05_a; ride_w05_b] by reflexivity.
  replace (week_label (2024, 5)%Z) with "2024-W05"%string by reflexivity.
  unfold arithmetic_mean, total. cbn [map fold_right List.length Ride.avg_watts
    Ride.avg_np Ride.avg_noncoasting_watts Ride.total_kj ride_w05_a ride_w05_b].
  replace (INR 2) with 2 by (simpl; lra).
  do 3 f_equal; f_equal; lra.
Qed.


(** Late December belongs to week 1 of the next ISO year; the rows come in
    the order of the weeks, not of the files. *)
Example week_keys_across_new_year :
  week_keys [ride_jan01; ride_dec29; ride_dec30] = [(2024, 52)%Z; (2025, 1)%Z]
  /\ rides_of_week (2025, 1)%Z [ride_jan01; ride_dec29; ride_dec30]
     = [ride_jan01; ride_dec30]
  /\ map week_label (week_keys [ride_jan01; ride_dec29; ride_dec30])
     = ["2024-W52"%string; "2025-W01"%string].
Proof. repeat split; reflexivity. Qed.

(** * Further properties of the code *)

(** ** The rolling average for any window *)

Lemma rolling_average_any_window (values : list R) (w n : nat) :
  (1 <= w)%nat ->
  flat_map
    (fun idx : nat =>
       let start := (Z.of_nat idx - Z.of_nat w + 1)%Z in
       if (start <? 0)%Z then []
       else [sum (slice values (Z.to_nat start) (idx + 1)) / IZR (Z.of_nat w)])
    (seq 0 n)
  = map (fun i => sum (slice values (i + 1 - w) (i + 1)) / INR w)
      (seq (w - 1) (n + 1 - w)).
Proof.
  intros Hw. induction n as [|n IH].
  - replace (0 + 1 - w)%nat with 0%nat by lia. reflexivity.
  - rewrite seq_S, flat_map_app, IH. simpl flat_map. rewrite app_nil_r.
    destruct (Z.ltb_spec (Z.of_nat n - Z.of_nat w + 1) 0) as [Hlt|Hge].
    + replace (S n + 1 - w)%nat with (n + 1 - w)%nat by lia.
      rewrite app_nil_r. reflexivity.
    + replace (S n + 1 - w)%nat with (S (n + 1 - w)) by lia.
      rewrite seq_S, map_app. cbn [map].
      replace (w - 1 + (n + 1 - w))%nat with n by lia.
      replace (Z.to_nat (Z.of_nat n - Z.of_nat w + 1)) with (n + 1 - w)%nat by lia.
      rewrite <- INR_IZR_INZ. reflexivity.
Qed.

(** X1.  For every window of [w >= 1] samples, the rolling average holds
    one value for each index [i >= w - 1] of the input, the sum of the [w]
    samples that end at [i] divided by [w], and nothing else. *)
Theorem rolling_average_window (values : list R) (w : nat) :
  (1 <= w)%nat ->
  List.length (_rolling_average values (Z.of_nat w))
  = (List.length values + 1 - w)%nat /\
  forall i, (w - 1 <= i < List.length values)%nat ->
    nth_error (_rolling_average values (Z.of_nat w)) (i + 1 - w)
    = Some (total (samples_between values (i + 1 - w) i) / INR w).
Proof.
  intros Hw. unfold _rolling_average.
  rewrite rolling_average_any_window by assumption. split.
  - rewrite length_map, length_seq. reflexivity.
  - intros i Hi. rewrite nth_error_map.
    replace (nth_error (seq (w - 1) (List.length values + 1 - w)) (i + 1 - w))
      with (Some i).
    + cbn [option_map]. unfold slice, samples_between.
      rewrite sum_total.
      replace (i + 1 - (i + 1 - w))%nat with w by lia.
      rewrite slice_by_index by lia. reflexivity.
    + symmetry.
      rewrite nth_error_nth' with (d := 0%nat) by (rewrite length_seq; lia).
      rewrite seq_nth by lia. f_equal. lia.
Qed.

Lemma rolling_average_window_witness :
  List.length (_rolling_average [1; 2; 3; 4] (Z.of_nat 2)) = 3%nat /\
  nth_error (_rolling_average [1; 2; 3; 4] (Z.of_nat 2)) (3 + 1 - 2)
  = Some (total (samples_between [1; 2; 3; 4] (3 + 1 - 2) 3) / INR 2).
Proof.
  destruct (rolling_average_window [1; 2; 3; 4] (w := 2)) as [Hlen Hnth]; [lia|].
  split; [exact Hlen | apply Hnth; simpl; lia].
Defined.

(** ** Bounds and scaling of the metrics *)

Lemma total_bounds (lo hi : R) (xs : list R) :
  Forall (fun x => lo <= x <= hi) xs ->
  INR (List.length xs) * lo <= total xs <= INR (List.length xs) * hi.
Proof.
  induction 1 as [|x xs Hx _ IH].
  - simpl. lra.
  - change (List.length (x :: xs)) with (S (List.length xs)).
    rewrite S_INR. simpl total. lra.
Qed.

Lemma arithmetic_mean_bounds (lo hi : R) (xs : list R) :
  xs <> [] -> Forall (fun x => lo <= x <= hi) xs ->
  lo <= arithmetic_mean xs <= hi.
Proof.
  intros Hne Hall. unfold arithmetic_mean.
  pose proof (INR_length_pos Hne) as Hpos.
  pose proof (total_bounds Hall) as [Hlo Hhi].
  split.
  - apply Rmult_le_reg_r with (r := INR (List.length xs)); [assumption|].
    unfold Rdiv. rewrite Rmult_assoc, Rinv_l by lra. lra.
  - apply Rmult_le_reg_r with (r := INR (List.length xs)); [assumption|].
    unfold Rdiv. rewrite Rmult_assoc, Rinv_l by lra. lra.
Qed.

Lemma rolling_average_bounds (lo hi : R) (P : list R) :
  Forall (fun p => lo <= p <= hi) P ->
  Forall (fun r => lo <= r <= hi) (_rolling_average P 30).
Proof.
  intros Hall. rewrite rolling_average_30.
  apply Forall_forall. intros r Hr.
  apply in_map_iff in Hr as [i [<- Hi]]. apply in_seq in Hi.
  rewrite window_value_mean by lia.
  apply arithmetic_mean_bounds.
  - unfold samples_between. replace (i + 1 - (i - 29))%nat with 30%nat by lia.
    discriminate.
  - unfold samples_between. apply Forall_forall. intros x Hx.
    apply in_map_iff in Hx as [k [<- Hk]]. apply in_seq in Hk.
    rewrite Forall_forall in Hall. apply Hall. apply nth_In. lia.
Qed.

Lemma pow4_le (r M : R) : - M <= r <= M -> r ^ 4 <= M ^ 4.
Proof.
  intros Hr.
  assert (H2 : 0 <= r * r <= M * M) by nra.
  replace (r ^ 4) with ((r * r) * (r * r)) by ring.
  replace (M ^ 4) with ((M * M) * (M * M)) by ring.
  nra.
Qed.


Lemma total_scale (k : R) (xs : list R) :
  total (map (fun x => k * x) xs) = k * total xs.
Proof. induction xs as [|x xs IH]; simpl; [lra | rewrite IH; lra]. Qed.

Lemma arithmetic_mean_scale (k : R) (xs : list R) :
  arithmetic_mean (map (fun x => k * x) xs) = k * arithmetic_mean xs.
Proof.
  unfold arithmetic_mean. rewrite total_scale, length_map.
  unfold Rdiv. ring.
Qed.

Lemma window_value_scale (k : R) (P : list R) (i : nat) :
  window_value (map (fun p => k * p) P) i = k * window_value P i.
Proof.
  unfold window_value, slice.
  rewrite skipn_map, firstn_map, !sum_total, total_scale.
  unfold Rdiv. ring.
Qed.

Lemma rolling_average_scale (k : R) (P : list R) :
  _rolling_average (map (fun p => k * p) P) 30
  = map (fun r => k * r) (_rolling_average P 30).
Proof.
  rewrite !rolling_average_30, length_map, map_map.
  apply map_ext. intros i. apply window_value_scale.
Qed.


(** ** The range error of the fourth power *)

Lemma pow4_returns (value : R) :
  value ^ 4 < 2 ^ 1024 -> Checked.pow4 value = Returns (value ^ 4).
Proof.
  intros H. unfold Checked.pow4.
  destruct (Rle_dec (2 ^ 1024) (value ^ 4)); [lra | reflexivity].
Qed.

Lemma pow4_raises (value : R) :
  2 ^ 1024 <= value ^ 4 -> Checked.pow4 value = Raises OverflowError.
Proof.
  intros H. unfold Checked.pow4.
  destruct (Rle_dec (2 ^ 1024) (value ^ 4)); [reflexivity | contradiction].
Qed.

Lemma mapM_pow4_cases (rs : list R) :
  mapM Checked.pow4 rs = Returns (map (fun value => value ^ 4) rs) \/
  mapM Checked.pow4 rs = Raises OverflowError.
Proof.
  induction rs as [|r rs IH]; [left; reflexivity|].
  cbn [mapM map].
  destruct (Rle_dec (2 ^ 1024) (r ^ 4)) as [Hge|Hlt].
  - rewrite (pow4_raises Hge). right. reflexivity.
  - rewrite pow4_returns by lra. cbn [bind].
    destruct IH as [-> | ->]; [left | right]; reflexivity.
Qed.

Lemma mapM_pow4_in_range (rs : list R) :
  Forall (fun r => r ^ 4 < 2 ^ 1024) rs ->
  mapM Checked.pow4 rs = Returns (map (fun value => value ^ 4) rs).
Proof.
  induction 1 as [|r rs Hr _ IH]; [reflexivity|].
  cbn [mapM map]. rewrite (pow4_returns Hr), IH. reflexivity.
Qed.

Lemma checked_normalized_power_unfold (P : list R) :
  Checked._normalized_power P
  = match _rolling_average P 30 with
    | [] => _normalized_power P
    | _ :: _ =>
        fourth_powers <- mapM Checked.pow4 (_rolling_average P 30) ;;
        fourth_power_avg <- mean fourth_powers ;;
        Returns (pow_quarter fourth_power_avg)
    end.
Proof.
  unfold Checked._normalized_power, _normalized_power.
  destruct (_rolling_average P 30); reflexivity.
Qed.

Lemma checked_normalized_power_cases (P : list R) :
  Checked._normalized_power P = _normalized_power P \/
  (Checked._normalized_power P = Raises OverflowError /\
   (30 <= List.length P)%nat).
Proof.
  rewrite checked_normalized_power_unfold.
  destruct (_rolling_average P 30) as [|r rs] eqn:E; [left; reflexivity|].
  destruct (mapM_pow4_cases (r :: rs)) as [H|H]; rewrite H.
  - left. unfold _normalized_power. rewrite E. reflexivity.
  - right. split; [reflexivity|].
    destruct (Nat.lt_ge_cases (List.length P) 30) as [Hlt|Hge]; [|assumption].
    apply rolling_average_nil_iff in Hlt. congruence.
Qed.

Lemma checked_normalized_power_in_range (P : list R) :
  Forall (fun r => r ^ 4 < 2 ^ 1024) (_rolling_average P 30) ->
  Checked._normalized_power P = _normalized_power P.
Proof.
  intros Hall. rewrite checked_normalized_power_unfold.
  destruct (_rolling_average P 30) as [|r rs] eqn:E; [reflexivity|].
  rewrite (mapM_pow4_in_range Hall).
  unfold _normalized_power. rewrite E. reflexivity.
Qed.

Lemma checked_normalized_power_short (P : list R) :
  (List.length P < 30)%nat -> Checked._normalized_power P = _normalized_power P.
Proof.
  intros Hlen. apply checked_normalized_power_in_range.
  apply rolling_average_nil_iff in Hlen. rewrite Hlen. constructor.
Qed.

Lemma pow_2_256_4 : (2 ^ 256) ^ 4 = 2 ^ 1024.
Proof. rewrite <- pow_mult. reflexivity. Qed.

Lemma checked_normalized_power_overflow (c : R) (n : nat) :
  2 ^ 256 <= c -> (30 <= n)%nat ->
  Checked._normalized_power (repeat c n) = Raises OverflowError.
Proof.
  intros Hc Hn. rewrite checked_normalized_power_unfold.
  rewrite rolling_average_repeat.
  destruct (n - 29)%nat as [|m] eqn:E; [lia|].
  simpl repeat. cbn [mapM].
  rewrite pow4_raises; [reflexivity|].
  rewrite <- pow_2_256_4.
  apply pow_incr. split; [|assumption].
  apply pow_le. lra.
Qed.

Lemma two_256_le_ten_78 : 2 ^ 256 <= 10 ^ 78.
Proof.
  rewrite !pow_IZR. apply IZR_le. apply Z.leb_le. vm_compute. reflexivity.
Qed.

Lemma ten_304_lt_two_1024 : (10 ^ 76) ^ 4 < 2 ^ 1024.
Proof.
  rewrite !pow_IZR. apply IZR_lt. apply Z.ltb_lt. vm_compute. reflexivity.
Qed.

Lemma checked_normalized_power_bounded (P : list R) :
  Forall (fun p => - 10 ^ 76 <= p <= 10 ^ 76) P ->
  Checked._normalized_power P = _normalized_power P.
Proof.
  intros Hall. apply checked_normalized_power_in_range.
  pose proof (rolling_average_bounds Hall) as Hb.
  eapply Forall_impl; [|exact Hb].
  intros r Hr. simpl in Hr.
  apply Rle_lt_trans with ((10 ^ 76) ^ 4); [|apply ten_304_lt_two_1024].
  apply pow4_le. exact Hr.
Qed.

Lemma checked_analyze_ride_samples (fit_path : string)
    (messages : list message) (r : Record_) (rest : list Record_) :
  _extract_records messages = r :: rest ->
  Checked.analyze_ride fit_path messages = analyze_ride fit_path messages \/
  Checked.analyze_ride fit_path messages = Raises OverflowError.
Proof.
  intros E. unfold Checked.analyze_ride, analyze_ride. rewrite E.
  unfold unzip. rewrite split_map. cbn [bind].
  rewrite mean_returns by discriminate. cbn [bind].
  unfold subscript. cbn [map nth_error bind].
  destruct (checked_normalized_power_cases (snd r :: map snd rest))
    as [-> | [-> _]]; [left | right]; reflexivity.
Qed.

(** ** The claims on the metrics, with the range error *)

(** C4, as stated, fails: for thirty samples of the constant power
    [10 ^ 78] W the fourth power of the rolling average is beyond the range
    of a double and the normalized power raises instead of being the
    constant; and in binary64 the one rolling average of thirty samples of
    123.4 W is 123.40000000000006, not 123.4. *)
Lemma constant_power_not_always_normalized :
  0 < 10 ^ 78 /\
  Checked._normalized_power (repeat (10 ^ 78) 30) = Raises OverflowError /\
  Checked._normalized_power (repeat (10 ^ 78) 30) <> Returns (10 ^ 78) /\
  B64._rolling_average (repeat B64.watts_123_4 30) 30 = [B64.rolled_123_4] /\
  PrimFloat.eqb B64.rolled_123_4 B64.watts_123_4 = false.
Proof.
  assert (H : Checked._normalized_power (repeat (10 ^ 78) 30)
              = Raises OverflowError)
    by (apply checked_normalized_power_overflow;
        [apply two_256_le_ten_78 | lia]).
  split; [apply pow_lt; lra|]. split; [exact H|].
  split; [rewrite H; discriminate|].
  split; vm_compute; reflexivity.
Qed.

(** C4, amended.  For a constant power [c > 0] over [n >= 1] samples the
    average power and the non-coasting average are [c]; the normalized
    power is [c] below 30 samples, and from 30 samples on when [c] is a
    whole number of watts of at most 9741, for which the sums of the
    windows and the fourth powers are exact in binary64. *)
Theorem constant_power_metrics (c : R) (n : nat) (k : Z) :
  0 < c -> (1 <= n)%nat ->
  mean (repeat c n) = Returns c /\
  _noncoasting_average (repeat c n) = Returns c /\
  ((n < 30)%nat -> Checked._normalized_power (repeat c n) = Returns c) /\
  (c = IZR k -> (k <= 9741)%Z ->
   Checked._normalized_power (repeat c n) = Returns c).
Proof.
  intros Hc Hn.
  split; [apply mean_repeat; assumption|].
  split; [apply noncoasting_average_repeat; assumption|].
  split.
  - intros Hlt. rewrite checked_normalized_power_short
      by (rewrite repeat_length; assumption).
    apply normalized_power_repeat; [lra | assumption].
  - intros Hk Hle.
    rewrite checked_normalized_power_in_range.
    + apply normalized_power_repeat; [lra | assumption].
    + rewrite rolling_average_repeat. apply Forall_forall.
      intros r Hr. apply repeat_spec in Hr. subst r.
      assert (Hc' : c <= 9741) by (rewrite Hk; apply IZR_le; assumption).
      apply Rle_lt_trans with (9741 ^ 4); [apply pow4_le; lra|].
      rewrite !pow_IZR. apply IZR_lt. apply Z.ltb_lt. vm_compute. reflexivity.
Qed.

Lemma constant_power_metrics_witness :
  (mean (repeat 100 3) = Returns 100 /\
   _noncoasting_average (repeat 100 3) = Returns 100 /\
   Checked._normalized_power (repeat 100 3) = Returns 100) /\
  Checked._normalized_power (repeat 250 30) = Returns 250.
Proof.
  destruct (@constant_power_metrics 100 3 100) as (Hm & Hnc & Hshort & _);
    [lra | lia|].
  destruct (@constant_power_metrics 250 30 250) as (_ & _ & _ & Hlong);
    [lra | lia|].
  split.
  - split; [exact Hm|]. split; [exact Hnc|]. apply Hshort. lia.
  - apply Hlong; [reflexivity | lia].
Defined.

(** C9, as stated, fails: thirty samples of [10 ^ 80] W are a finite
    sequence of numbers, and the normalized power raises [OverflowError]
    on it. *)
Lemma normalized_power_raises_on_finite_input :
  Checked._normalized_power (repeat (10 ^ 80) 30) = Raises OverflowError.
Proof.
  apply checked_normalized_power_overflow; [|lia].
  apply Rle_trans with (10 ^ 78); [apply two_256_le_ten_78|].
  apply Rle_pow; [lra | lia].
Qed.

(** C9, amended.  For every sequence of powers of a magnitude of at most
    [10 ^ 76], negative ones included, the normalized power returns a
    value; without the bound the one exception that it can raise is the
    [OverflowError] of the fourth power, from 30 samples on.  The
    non-coasting average returns for every sequence, and the mean behind
    the average power for every sequence that is not empty.  In the ride
    analyzer the mean of no data is out of reach: it returns the absence of
    a ride before any metric when there is no sample, and over the four
    metrics, the energy included, the one exception that it can raise is
    that [OverflowError]. *)
Theorem metrics_raise_nothing (P : list R) (fit_path : string)
    (messages : list message) :
  (Forall (fun p => - 10 ^ 76 <= p <= 10 ^ 76) P ->
   exists v, Checked._normalized_power P = Returns v) /\
  (forall e, Checked._normalized_power P = Raises e ->
             e = OverflowError /\ (30 <= List.length P)%nat) /\
  (exists v, _noncoasting_average P = Returns v) /\
  (P <> [] -> exists v, mean P = Returns v) /\
  (_extract_records messages = [] ->
   Checked.analyze_ride fit_path messages = Returns None) /\
  (forall e, Checked.analyze_ride fit_path messages = Raises e ->
             e = OverflowError).
Proof.
  split.
  { intros Hall. rewrite (checked_normalized_power_bounded Hall).
    apply normalized_power_returns. }
  split.
  { intros e He.
    destruct (checked_normalized_power_cases P) as [H | [H Hlen]].
    - rewrite H in He. destruct (normalized_power_returns P) as [v Hv].
      rewrite Hv in He. discriminate.
    - rewrite H in He. injection He as <-. split; [reflexivity | assumption]. }
  split; [apply noncoasting_average_returns|].
  split.
  { intros Hne. rewrite mean_returns by assumption. eauto. }
  split.
  { intros E. unfold Checked.analyze_ride. rewrite E. reflexivity. }
  intros e He.
  destruct (_extract_records messages) as [|r rest] eqn:E.
  - unfold Checked.analyze_ride in He. rewrite E in He. discriminate.
  - destruct (checked_analyze_ride_samples fit_path messages E) as [H|H];
      rewrite H in He; [|injection He as <-; reflexivity].
    destruct (analyze_ride_samples fit_path messages E)
      as (np & nc & _ & _ & Hr).
    rewrite Hr in He. discriminate.
Qed.

Lemma metrics_raise_nothing_witness :
  (exists v, Checked._normalized_power [-50; 100] = Returns v) /\
  (exists v, mean [-50; 100] = Returns v) /\
  Checked.analyze_ride "data/ride.fit" [[other_field "heart_rate"]]
  = Returns None.
Proof.
  destruct (metrics_raise_nothing [-50; 100] "data/ride.fit"
              [[other_field "heart_rate"]])
    as (Hnp & _ & _ & Hmean & Hnone & _).
  split; [|split].
  - apply Hnp.
    assert (H76 : 100 <= 10 ^ 76).
    { apply Rle_trans with (10 ^ 2); [simpl; lra|]. apply Rle_pow; [lra | lia]. }
    repeat (apply Forall_cons; [lra|]). apply Forall_nil.
  - apply Hmean. discriminate.
  - apply Hnone. reflexivity.
Defined.

(** ** Bounds and symmetry of the normalized power *)

(** X2.  When the normalized power returns a value: below 30 samples the
    value lies between any two bounds that hold for every sample, and from
    30 samples on it is never negative, whatever the signs of the
    samples. *)
Theorem normalized_power_bounds (P : list R) (lo hi v : R) :
  Checked._normalized_power P = Returns v ->
  ((List.length P < 30)%nat -> P <> [] ->
   Forall (fun p => lo <= p <= hi) P -> lo <= v <= hi) /\
  ((30 <= List.length P)%nat -> 0 <= v).
Proof.
  intros Hv. split.
  - intros Hlen Hne Hall.
    rewrite checked_normalized_power_short in Hv by assumption.
    rewrite normalized_power_fallback in Hv
      by (assumption || apply rolling_average_nil_iff; assumption).
    rewrite mean_returns in Hv by assumption. injection Hv as <-.
    apply arithmetic_mean_bounds; assumption.
  - intros Hlen.
    destruct (checked_normalized_power_cases P) as [H | [H _]];
      rewrite H in Hv; [|discriminate].
    rewrite normalized_power_rolling in Hv
      by (intros E; apply rolling_average_nil_iff in E; lia).
    injection Hv as <-. apply pow_quarter_nonneg.
Qed.

Lemma normalized_power_bounds_witness :
  - 50 <= arithmetic_mean [-50; 100; 250] <= 250.
Proof.
  destruct (@normalized_power_bounds [-50; 100; 250] (-50) 250
              (arithmetic_mean [-50; 100; 250])) as [Hshort _].
  - rewrite checked_normalized_power_short by (simpl; lia).
    rewrite normalized_power_fallback by (reflexivity || discriminate).
    apply mean_returns. discriminate.
  - apply Hshort; [simpl; lia | discriminate | repeat constructor; lra].
Defined.

Lemma rolling_average_opp (P : list R) :
  _rolling_average (map Ropp P) 30 = map Ropp (_rolling_average P 30).
Proof.
  rewrite (map_ext Ropp (fun p => -1 * p)) by (intros p; ring).
  rewrite rolling_average_scale.
  apply map_ext. intros r. ring.
Qed.

Lemma mapM_pow4_opp (rs : list R) :
  mapM Checked.pow4 (map Ropp rs) = mapM Checked.pow4 rs.
Proof.
  induction rs as [|r rs IH]; [reflexivity|].
  cbn [mapM map]. rewrite IH.
  replace (Checked.pow4 (- r)) with (Checked.pow4 r); [reflexivity|].
  unfold Checked.pow4. replace ((- r) ^ 4) with (r ^ 4) by ring. reflexivity.
Qed.

Lemma arithmetic_mean_opp (xs : list R) :
  arithmetic_mean (map Ropp xs) = - arithmetic_mean xs.
Proof.
  rewrite (map_ext Ropp (fun p => -1 * p)) by (intros p; ring).
  rewrite arithmetic_mean_scale. ring.
Qed.

(** X3.  Changing the sign of every sample: below 30 samples the
    normalized power changes its sign, from 30 samples on the outcome is
    the same, the value as well as the error. *)
Theorem normalized_power_negation (P : list R) (v : R) :
  ((List.length P < 30)%nat ->
   Checked._normalized_power P = Returns v ->
   Checked._normalized_power (map Ropp P) = Returns (- v)) /\
  ((30 <= List.length P)%nat ->
   Checked._normalized_power (map Ropp P) = Checked._normalized_power P).
Proof.
  split.
  - intros Hlen Hv.
    rewrite checked_normalized_power_short in Hv by assumption.
    rewrite checked_normalized_power_short by (rewrite length_map; assumption).
    destruct P as [|p ps].
    + injection Hv as <-. replace (- 0) with 0 by lra. reflexivity.
    + rewrite normalized_power_fallback in Hv
        by (discriminate || apply rolling_average_nil_iff; assumption).
      rewrite mean_returns in Hv by discriminate. injection Hv as <-.
      rewrite normalized_power_fallback.
      * rewrite mean_returns by discriminate.
        rewrite arithmetic_mean_opp. reflexivity.
      * apply rolling_average_nil_iff. rewrite length_map. assumption.
      * discriminate.
  - intros Hlen.
    rewrite !checked_normalized_power_unfold, rolling_average_opp.
    destruct (_rolling_average P 30) as [|r rs] eqn:E.
    + apply rolling_average_nil_iff in E. lia.
    + rewrite mapM_pow4_opp. reflexivity.
Qed.

Lemma normalized_power_negation_witness :
  Checked._normalized_power (map Ropp (repeat 100 3)) = Returns (- 100) /\
  Checked._normalized_power (map Ropp (repeat 100 30))
  = Checked._normalized_power (repeat 100 30).
Proof.
  split.
  - apply (@normalized_power_negation (repeat 100 3) 100).
    + simpl. lia.
    + rewrite checked_normalized_power_short by (simpl; lia).
      apply normalized_power_repeat; [lra | lia].
  - apply (@normalized_power_negation (repeat 100 30) 100). simpl. lia.
Defined.

(** ** The non-coasting average against the average *)

Lemma total_filter_gt0 (P : list R) :
  Forall (fun p => 0 <= p) P -> total (filter gt0 P) = total P.
Proof.
  induction 1 as [|p ps Hp _ IH]; simpl; [reflexivity|].
  destruct (gt0 p) eqn:E; simpl; rewrite IH; [reflexivity|].
  apply gt0_false in E. lra.
Qed.

Lemma filter_length_le {A : Type} (f : A -> bool) (xs : list A) :
  (List.length (filter f xs) <= List.length xs)%nat.
Proof.
  induction xs as [|x xs IH]; simpl; [lia|].
  destruct (f x); simpl; lia.
Qed.

Lemma noncoasting_ge_mean (P : list R) :
  Forall (fun p => 0 <= p) P -> P <> [] ->
  exists nc, _noncoasting_average P = Returns nc /\ arithmetic_mean P <= nc.
Proof.
  intros Hall Hne. unfold _noncoasting_average.
  pose proof (total_filter_gt0 Hall) as Ht.
  pose proof (INR_length_pos Hne) as Hn.
  destruct (filter gt0 P) as [|q qs] eqn:E.
  - exists 0. split; [reflexivity|].
    unfold arithmetic_mean. rewrite <- Ht. simpl total.
    unfold Rdiv. rewrite Rmult_0_l. lra.
  - exists (arithmetic_mean (q :: qs)).
    split; [apply mean_returns; discriminate|].
    unfold arithmetic_mean. rewrite Ht.
    assert (Hq : 0 < INR (List.length (q :: qs)))
      by (apply INR_length_pos; discriminate).
    assert (Hle : INR (List.length (q :: qs)) <= INR (List.length P))
      by (apply le_INR; rewrite <- E; apply filter_length_le).
    pose proof (total_nonneg Hall) as Hpos.
    unfold Rdiv. apply Rmult_le_compat_l; [assumption|].
    apply Rinv_le_contravar; assumption.
Qed.

(** X4.  For samples that are all non-negative, the non-coasting average
    is at least the average power. *)
Theorem noncoasting_at_least_average (P : list R) :
  Forall (fun p => 0 <= p) P ->
  P <> [] ->
  exists avg nc,
    mean P = Returns avg /\ _noncoasting_average P = Returns nc /\ avg <= nc.
Proof.
  intros Hall Hne.
  destruct (noncoasting_ge_mean Hall Hne) as [nc [Hnc Hle]].
  exists (arithmetic_mean P), nc.
  split; [apply mean_returns; assumption | split; assumption].
Qed.

Lemma noncoasting_at_least_average_witness :
  exists avg nc,
    mean [0; 200; 100] = Returns avg /\
    _noncoasting_average [0; 200; 100] = Returns nc /\ avg <= nc.
Proof.
  apply (noncoasting_at_least_average (P := [0; 200; 100])).
  - repeat constructor; lra.
  - discriminate.
Defined.

Lemma filter_permutation {A : Type} (f : A -> bool) (xs ys : list A) :
  Permutation xs ys -> Permutation (filter f xs) (filter f ys).
Proof.
  induction 1 as [|x xs ys _ IH|x y xs|xs ys zs _ IH1 _ IH2]; simpl.
  - constructor.
  - destruct (f x); [constructor|]; assumption.
  - destruct (f x), (f y); try reflexivity. apply perm_swap.
  - etransitivity; eassumption.
Qed.

Lemma mean_permutation (xs ys : list R) :
  Permutation xs ys -> mean xs = mean ys.
Proof.
  intros Hperm. destruct xs as [|x xs].
  - apply Permutation_nil in Hperm. subst. reflexivity.
  - destruct ys as [|y ys].
    + apply Permutation_sym, Permutation_nil in Hperm. discriminate.
    + rewrite !mean_returns by discriminate. unfold arithmetic_mean.
      rewrite (total_permutation Hperm), (Permutation_length Hperm).
      reflexivity.
Qed.

(** X5.  The average power and the non-coasting average do not depend on
    the order of the samples, and the non-coasting average does not change
    when samples that are not positive are put in or taken out. *)
Theorem averages_ignore_order_and_coasting (P Q xs ys : list R) (z : R) :
  (Permutation P Q ->
   mean P = mean Q /\ _noncoasting_average P = _noncoasting_average Q) /\
  (z <= 0 ->
   _noncoasting_average (xs ++ z :: ys) = _noncoasting_average (xs ++ ys)).
Proof.
  split.
  - intros Hperm. split; [apply mean_permutation; assumption|].
    unfold _noncoasting_average.
    pose proof (filter_permutation gt0 Hperm) as Hf.
    destruct (filter gt0 P) as [|p ps] eqn:EP.
    + apply Permutation_nil in Hf. rewrite Hf. reflexivity.
    + destruct (filter gt0 Q) as [|q qs] eqn:EQ.
      * apply Permutation_sym, Permutation_nil in Hf. discriminate.
      * apply mean_permutation. assumption.
  - intros Hz. unfold _noncoasting_average.
    rewrite !filter_app. simpl.
    apply gt0_false in Hz. rewrite Hz. reflexivity.
Qed.

Lemma averages_ignore_order_and_coasting_witness :
  (mean [100; 0; 200] = mean [200; 100; 0] /\
   _noncoasting_average [100; 0; 200] = _noncoasting_average [200; 100; 0]) /\
  _noncoasting_average ([100] ++ 0 :: [200]) = _noncoasting_average ([100] ++ [200]).
Proof.
  split.
  - apply (averages_ignore_order_and_coasting
             [100; 0; 200] [200; 100; 0] [] [] 0).
    apply Permutation_sym.
    apply (perm_trans (l' := [100; 200; 0])).
    + apply perm_swap.
    + apply perm_skip. apply perm_swap.
  - apply (averages_ignore_order_and_coasting [] [] [100] [200] 0). lra.
Defined.

(** ** Energy *)

Lemma joules_of_pairs_cons2 (t1 : datetime.t) (p1 : R) (t2 : datetime.t) (p2 : R)
    (rest : list Record_) :
  joules_of_pairs ((t1, p1) :: (t2, p2) :: rest)
  = (if Rlt_dec 0 (datetime.total_seconds (datetime.sub t2 t1))
     then p1 * datetime.total_seconds (datetime.sub t2 t1) else 0)
    + joules_of_pairs ((t2, p2) :: rest).
Proof. reflexivity. Qed.

Lemma joules_of_pairs_last_power (xs : list Record_) (t : datetime.t) (p p' : R) :
  joules_of_pairs (xs ++ [(t, p)]) = joules_of_pairs (xs ++ [(t, p')]).
Proof.
  induction xs as [|[t1 p1] xs IH]; [reflexivity|].
  destruct xs as [|[t2 p2] xs'].
  - reflexivity.
  - rewrite <- !app_comm_cons in *.
    rewrite !(joules_of_pairs_cons2 t1 p1 t2 p2).
    f_equal. exact IH.
Qed.

Lemma joules_of_pairs_nonneg (records : list Record_) :
  Forall (fun s => 0 <= snd s) records -> 0 <= joules_of_pairs records.
Proof.
  induction 1 as [|[t1 p1] rest Hp _ IH]; simpl; [lra|].
  destruct rest as [|[t2 p2] rest']; [lra|].
  simpl in Hp. destruct (Rlt_dec 0 _); nra.
Qed.

Lemma joules_of_pairs_split (xs ys : list Record_) (s : Record_) :
  joules_of_pairs (xs ++ s :: ys)
  = joules_of_pairs (xs ++ [s]) + joules_of_pairs (s :: ys).
Proof.
  induction xs as [|[t1 p1] xs IH].
  - destruct s as [t p]. simpl. lra.
  - destruct xs as [|[t2 p2] xs'].
    + destruct s as [t p]. simpl. destruct ys as [|[t' p'] ys']; lra.
    + rewrite <- !app_comm_cons in *.
      rewrite !(joules_of_pairs_cons2 t1 p1 t2 p2).
      rewrite Rplus_assoc. f_equal. exact IH.
Qed.

Lemma joules_of_pairs_grows (xs ys : list Record_) :
  Forall (fun r => 0 <= snd r) (xs ++ ys) ->
  joules_of_pairs xs <= joules_of_pairs (xs ++ ys).
Proof.
  intros Hall.
  destruct xs as [|x xs'] using rev_ind.
  - simpl. apply joules_of_pairs_nonneg. assumption.
  - rewrite <- app_assoc. change ([x] ++ ys) with (x :: ys).
    rewrite (joules_of_pairs_split xs' ys x).
    assert (Hys : 0 <= joules_of_pairs (x :: ys)).
    { apply joules_of_pairs_nonneg.
      rewrite <- app_assoc in Hall. apply Forall_app in Hall as [_ Hall].
      exact Hall. }
    clear Hall.
    lra.
Qed.

(** X6.  The energy does not depend on the power of the last sample; when
    no power is negative it is not negative, and it does not get smaller
    when further samples are appended. *)
Theorem ride_energy_sign_and_growth (xs ys : list Record_)
    (t : datetime.t) (p p' : R) :
  _ride_energy_kj (xs ++ [(t, p)]) = _ride_energy_kj (xs ++ [(t, p')]) /\
  (Forall (fun r => 0 <= snd r) xs -> 0 <= _ride_energy_kj xs) /\
  (Forall (fun r => 0 <= snd r) (xs ++ ys) ->
   _ride_energy_kj xs <= _ride_energy_kj (xs ++ ys)).
Proof.
  rewrite !ride_energy_joules. split; [|split].
  - rewrite (joules_of_pairs_last_power xs t p p'). reflexivity.
  - intros Hall. pose proof (joules_of_pairs_nonneg Hall). lra.
  - intros Hall. pose proof (joules_of_pairs_grows xs ys Hall). lra.
Qed.

Lemma ride_energy_sign_and_growth_witness :
  0 <= _ride_energy_kj three_samples /\
  _ride_energy_kj three_samples
  <= _ride_energy_kj (three_samples ++ [(t2, 150)]).
Proof.
  destruct (ride_energy_sign_and_growth three_samples [(t2, 150)] t0 0 0)
    as (_ & Hsign & Hgrow).
  split.
  - apply Hsign. repeat (apply Forall_cons; [simpl; lra|]). apply Forall_nil.
  - apply Hgrow. repeat (apply Forall_cons; [simpl; lra|]). apply Forall_nil.
Defined.

Lemma seconds_between_add (a b c : Record_) :
  seconds_between a c = seconds_between a b + seconds_between b c.
Proof.
  unfold seconds_between, datetime.total_seconds.
  replace (datetime.sub (fst c) (fst a))
    with (datetime.sub (fst b) (fst a) + datetime.sub (fst c) (fst b))%Z
    by (unfold datetime.sub; ring).
  rewrite plus_IZR. lra.
Qed.

Lemma seconds_between_same (a : Record_) : seconds_between a a = 0.
Proof.
  unfold seconds_between, datetime.total_seconds.
  replace (datetime.sub (fst a) (fst a)) with 0%Z
    by (unfold datetime.sub; ring).
  lra.
Qed.

Lemma joules_of_pairs_step (a b : Record_) (rest : list Record_) :
  joules_of_pairs (a :: b :: rest)
  = (if Rlt_dec 0 (seconds_between a b) then snd a * seconds_between a b else 0)
    + joules_of_pairs (b :: rest).
Proof. destruct a, b. reflexivity. Qed.

Lemma joules_descending (records : list Record_) :
  Sorted (fun a b => seconds_between a b <= 0) records ->
  joules_of_pairs records = 0.
Proof.
  induction 1 as [|a rest Hs IH Hhd]; [reflexivity|].
  destruct rest as [|b rest'].
  - destruct a. reflexivity.
  - inversion Hhd as [|? ? Hdt]; subst.
    rewrite joules_of_pairs_step, IH.
    destruct (Rlt_dec 0 (seconds_between a b)); lra.
Qed.

(** X7.  For samples whose timestamps never go forward (every sample is
    at the time of the one before or earlier) the energy is 0: no pair adds
    anything. *)
Theorem ride_energy_without_forward_time (records : list Record_) :
  Sorted (fun a b => seconds_between a b <= 0) records ->
  _ride_energy_kj records = 0.
Proof.
  intros Hs. rewrite ride_energy_joules, (joules_descending Hs). lra.
Qed.

Lemma seconds_t0_t1 : seconds_between (t0, 100) (t1, 100) = 1.
Proof. exact one_second_t0_t1. Qed.

Lemma ride_energy_without_forward_time_witness :
  _ride_energy_kj [(t1, 100); (t0, 100); (t0, 100)] = 0.
Proof.
  apply (@ride_energy_without_forward_time [(t1, 100); (t0, 100); (t0, 100)]).
  apply Sorted_cons; [apply Sorted_cons; [apply Sorted_cons|]|].
  - apply Sorted_nil.
  - apply HdRel_nil.
  - apply HdRel_cons. rewrite seconds_between_same. lra.
  - apply HdRel_cons.
    pose proof (seconds_between_add (t0, 100) (t1, 100) (t0, 100)) as Hadd.
    rewrite seconds_between_same, seconds_t0_t1 in Hadd. lra.
Defined.

(** ** The record extractor *)

Lemma sorted_of_ascending {A K : Type} (key : A -> K) (leb : K -> K -> bool)
    (xs : list A) :
  StronglySorted (fun a b => leb (key a) (key b) = true) xs ->
  sorted key leb xs = xs.
Proof.
  induction 1 as [|x xs Hs IH Hall]; [reflexivity|].
  simpl. rewrite IH. destruct xs as [|y ys]; [reflexivity|].
  simpl. inversion Hall as [|? ? Hxy _]; subst. rewrite Hxy. reflexivity.
Qed.

(** X8.  The extractor gives one sample for each message that has both a
    timestamp and a power, so never more samples than messages; leaving
    the other messages out of the stream changes nothing; and a stream
    whose samples are already in ascending order of timestamp comes out as
    it is, samples of equal timestamps included. *)
Theorem extract_records_complete_messages (messages : list message) :
  List.length (_extract_records messages)
  = List.length (filter complete messages) /\
  (List.length (_extract_records messages) <= List.length messages)%nat /\
  _extract_records (filter complete messages) = _extract_records messages /\
  (StronglySorted by_timestamp (flat_map extract_one messages) ->
   _extract_records messages = flat_map extract_one messages).
Proof.
  assert (Hlen : List.length (_extract_records messages)
                 = List.length (filter complete messages)).
  { rewrite (Permutation_length (extract_records_permutation messages)).
    apply flat_map_extract_length. }
  split; [exact Hlen|]. split; [|split].
  - rewrite Hlen. apply filter_length_le.
  - unfold _extract_records. rewrite flat_map_extract_complete. reflexivity.
  - intros Hs. unfold _extract_records. apply sorted_of_ascending. exact Hs.
Qed.

Lemma extract_records_complete_messages_witness :
  _extract_records [msg t0 100; msg t0 200; msg t1 150]
  = flat_map extract_one [msg t0 100; msg t0 200; msg t1 150].
Proof.
  apply (extract_records_complete_messages [msg t0 100; msg t0 200; msg t1 150]).
  repeat constructor.
Defined.

Lemma get_timestamp_last (record : message) (v : option datetime.t) :
  get_timestamp (record ++ [timestamp_field v]) = v.
Proof. unfold get_timestamp. rewrite fold_left_app. reflexivity. Qed.

Lemma get_power_last (record : message) (v : option number) :
  get_power (record ++ [power_field v]) = v.
Proof. unfold get_power. rewrite fold_left_app. reflexivity. Qed.

Lemma get_timestamp_skip (xs ys : message) (f : field) :
  (forall v, f <> timestamp_field v) ->
  get_timestamp (xs ++ f :: ys) = get_timestamp (xs ++ ys).
Proof.
  intros Hf. unfold get_timestamp. rewrite !fold_left_app. simpl.
  destruct f; try reflexivity. exfalso. apply (Hf value). reflexivity.
Qed.

Lemma get_power_skip (xs ys : message) (f : field) :
  (forall v, f <> power_field v) ->
  get_power (xs ++ f :: ys) = get_power (xs ++ ys).
Proof.
  intros Hf. unfold get_power. rewrite !fold_left_app. simpl.
  destruct f; try reflexivity. exfalso. apply (Hf value). reflexivity.
Qed.

(** X9.  Of the fields of a message only the last one named "timestamp"
    and the last one named "power" count: fields of other names are
    ignored wherever they are, a message that ends with a timestamp and a
    power gives that sample whatever comes before, and a last power or a
    last timestamp that is [None] drops the message even when an earlier
    field of that name has a value. *)
Theorem extract_one_fields (xs ys : message) (name : string)
    (t : datetime.t) (v : number) :
  extract_one (xs ++ other_field name :: ys) = extract_one (xs ++ ys) /\
  extract_one (xs ++ [timestamp_field (Some t); power_field (Some v)])
  = [(t, float v)] /\
  extract_one (xs ++ [power_field (Some v); timestamp_field (Some t)])
  = [(t, float v)] /\
  extract_one (xs ++ [power_field None]) = [] /\
  extract_one (xs ++ [timestamp_field None]) = [].
Proof.
  unfold extract_one. split; [|split; [|split; [|split]]].
  - rewrite get_timestamp_skip, get_power_skip by (intro; discriminate). reflexivity.
  - replace (xs ++ [timestamp_field (Some t); power_field (Some v)])
      with ((xs ++ [timestamp_field (Some t)]) ++ [power_field (Some v)])
      by (rewrite <- app_assoc; reflexivity).
    rewrite get_power_last.
    rewrite (get_timestamp_skip (xs ++ [timestamp_field (Some t)]) [])
      by (intro; discriminate).
    rewrite app_nil_r, get_timestamp_last. reflexivity.
  - replace (xs ++ [power_field (Some v); timestamp_field (Some t)])
      with ((xs ++ [power_field (Some v)]) ++ [timestamp_field (Some t)])
      by (rewrite <- app_assoc; reflexivity).
    rewrite get_timestamp_last.
    rewrite (get_power_skip (xs ++ [power_field (Some v)]) [])
      by (intro; discriminate).
    rewrite app_nil_r, get_power_last. reflexivity.
  - rewrite get_power_last. destruct (get_timestamp _); reflexivity.
  - rewrite get_timestamp_last. reflexivity.
Qed.

(** ** The ride analyzer *)

Lemma analyze_ride_inversion (fit_path : string) (messages : list message)
    (ride : RideMetrics) :
  analyze_ride fit_path messages = Returns (Some ride) ->
  let powers := map snd (_extract_records messages) in
  _extract_records messages <> [] /\
  Ride.file ride = basename fit_path /\
  Returns (Ride.avg_watts ride) = mean powers /\
  Returns (Ride.avg_np ride) = _normalized_power powers /\
  Returns (Ride.avg_noncoasting_watts ride) = _noncoasting_average powers /\
  Ride.total_kj ride = _ride_energy_kj (_extract_records messages).
Proof.
  intros Hride powers. subst powers.
  destruct (_extract_records messages) as [|r rest] eqn:E.
  - rewrite analyze_ride_empty in Hride by assumption. discriminate.
  - destruct (analyze_ride_samples fit_path messages E)
      as (np & nc & Hnp & Hnc & Hr).
    rewrite Hr in Hride. injection Hride as <-.
    cbn [Ride.file Ride.avg_watts Ride.avg_np Ride.avg_noncoasting_watts
         Ride.total_kj].
    rewrite mean_returns by discriminate.
    repeat split; try reflexivity; try discriminate; symmetry; assumption.
Qed.

(** X10.  A ride of fewer than 30 samples has its normalized power equal
    to its average power; a ride whose samples have no negative power has
    no negative metric, and its non-coasting average is at least its
    average power. *)
Theorem ride_metrics_relations (fit_path : string) (messages : list message)
    (ride : RideMetrics) :
  analyze_ride fit_path messages = Returns (Some ride) ->
  ((List.length (_extract_records messages) < 30)%nat ->
   Ride.avg_np ride = Ride.avg_watts ride) /\
  (Forall (fun s => 0 <= snd s) (_extract_records messages) ->
   0 <= Ride.avg_watts ride <= Ride.avg_noncoasting_watts ride /\
   0 <= Ride.avg_np ride /\
   0 <= Ride.total_kj ride).
Proof.
  intros Hride.
  destruct (analyze_ride_inversion _ _ Hride)
    as (Hne & _ & Havg & Hnp & Hnc & Hkj).
  assert (Hpne : map snd (_extract_records messages) <> [])
    by (apply map_not_nil; assumption).
  rewrite mean_returns in Havg by assumption. injection Havg as Havg.
  split.
  - intros Hlen.
    rewrite normalized_power_fallback in Hnp
      by (assumption || apply rolling_average_nil_iff; rewrite length_map;
          assumption).
    rewrite mean_returns in Hnp by assumption. injection Hnp as Hnp.
    congruence.
  - intros Hall.
    assert (Hpall : Forall (fun p => 0 <= p) (map snd (_extract_records messages))).
    { apply Forall_forall. intros p Hp. apply in_map_iff in Hp as [s [<- Hs]].
      rewrite Forall_forall in Hall. apply Hall. assumption. }
    destruct (noncoasting_ge_mean Hpall Hpne) as [nc [Hnc' Hle]].
    rewrite Hnc' in Hnc. injection Hnc as Hnc.
    assert (Hmean : 0 <= arithmetic_mean (map snd (_extract_records messages)))
      by (apply arithmetic_mean_nonneg; assumption).
    split; [rewrite Havg, Hnc; split; assumption|]. split.
    + destruct (Nat.lt_ge_cases
                  (List.length (map snd (_extract_records messages))) 30)
        as [Hlt|Hge].
      * rewrite normalized_power_fallback in Hnp
          by (assumption || apply rolling_average_nil_iff; assumption).
        rewrite mean_returns in Hnp by assumption. injection Hnp as Hnp.
        rewrite Hnp. assumption.
      * rewrite normalized_power_rolling in Hnp
          by (intros E; apply rolling_average_nil_iff in E; lia).
        injection Hnp as Hnp. rewrite Hnp. apply pow_quarter_nonneg.
    + rewrite Hkj, ride_energy_joules.
      pose proof (joules_of_pairs_nonneg Hall). lra.
Qed.

Lemma ride_metrics_relations_witness :
  let ride := Ride.make "2024-01-29.fit" t0 100 100 100 0.2 in
  Ride.avg_np ride = Ride.avg_watts ride /\
  (0 <= Ride.avg_watts ride <= Ride.avg_noncoasting_watts ride /\
   0 <= Ride.avg_np ride /\
   0 <= Ride.total_kj ride).
Proof.
  destruct (@ride_metrics_relations
              "data/2024-01-29.fit"
              [msg t0 100; [timestamp_field (Some t1)]; msg t1 100; msg t2 100]
              _ analyze_three_samples) as [Hshort Hpos].
  split.
  - apply Hshort. simpl. lia.
  - apply Hpos.
    change (Forall (fun s : Record_ => 0 <= snd s) three_samples).
    repeat constructor; simpl; lra.
Defined.

(** ** Paths *)

Lemma basename_from_free (tail name : string) :
  free_of "/" name -> basename_from tail name = (tail ++ name)%string.
Proof.
  revert tail. induction name as [|c name IH]; intros tail Hfree; simpl.
  - clear. induction tail as [|a tail IHt]; simpl; [reflexivity | f_equal; exact IHt].
  - destruct Hfree as [Hc Hfree].
    destruct (Ascii.eqb_spec c "/"); [contradiction|].
    rewrite IH by assumption.
    clear. induction tail as [|a tail IHt]; simpl; [reflexivity | f_equal; exact IHt].
Qed.

Lemma basename_from_slash (tail a b : string) :
  basename_from tail (a ++ String "/" b) = basename_from EmptyString b.
Proof.
  revert tail. induction a as [|c a IH]; intros tail; simpl.
  - reflexivity.
  - destruct (Ascii.eqb c "/"); apply IH.
Qed.

Lemma endswith_slash (s : string) :
  endswith s "/" = true -> exists s', s = (s' ++ "/")%string.
Proof.
  unfold endswith. simpl String.length.
  induction s as [|c s IH]; simpl; [discriminate|].
  destruct s as [|c' s'].
  - simpl. destruct (Ascii.eqb_spec c "/") as [->|Hc]; [|discriminate].
    intros _. exists EmptyString. reflexivity.
  - intros H.
    destruct IH as [s0 Hs0].
    + simpl in *. rewrite Nat.sub_0_r in *. exact H.
    + exists (String c s0). simpl. rewrite <- Hs0. reflexivity.
Qed.

Lemma startswith_slash_free (name : string) :
  free_of "/" name -> startswith name "/" = false.
Proof.
  destruct name as [|c name]; [reflexivity|].
  intros [Hc _]. unfold startswith. cbn [String.prefix].
  destruct (ascii_dec "/" c) as [E|E]; [congruence|reflexivity].
Qed.

Lemma append_assoc (a b c : string) :
  ((a ++ b) ++ c = a ++ (b ++ c))%string.
Proof. induction a as [|x a IH]; simpl; [reflexivity | f_equal; exact IH]. Qed.

Lemma basename_join (data_dir name : string) :
  free_of "/" name -> basename (join data_dir name) = name.
Proof.
  intros Hfree. unfold join, basename.
  rewrite startswith_slash_free by assumption.
  destruct (String.eqb_spec data_dir EmptyString) as [->|Hne]; simpl orb.
  - simpl. apply (basename_from_free EmptyString). assumption.
  - destruct (endswith data_dir "/") eqn:E.
    + apply endswith_slash in E as [d' ->].
      rewrite append_assoc.
      change ("/" ++ name)%string with (String "/" name).
      rewrite basename_from_slash.
      apply (basename_from_free EmptyString). assumption.
    + change ("/" ++ name)%string with (String "/" name).
      rewrite basename_from_slash.
      apply (basename_from_free EmptyString). assumption.
Qed.

(** X11.  For a name without a slash, the base name of the path that
    [os.path.join] makes from a directory and the name is the name again,
    so the ride of a file of the directory carries the name of the file. *)
Theorem ride_file_is_the_name (data_dir name : string)
    (messages : list message) (ride : RideMetrics) :
  free_of "/" name ->
  basename (join data_dir name) = name /\
  (analyze_ride (join data_dir name) messages = Returns (Some ride) ->
   Ride.file ride = name).
Proof.
  intros Hfree. split; [apply basename_join; assumption|].
  intros Hride.
  destruct (analyze_ride_inversion _ _ Hride) as (_ & Hfile & _).
  rewrite Hfile. apply basename_join. assumption.
Qed.

Lemma ride_file_is_the_name_witness :
  basename (join "data" "2024-01-29.fit") = "2024-01-29.fit"%string /\
  Ride.file (Ride.make "2024-01-29.fit" t0 100 100 100 0.2)
  = "2024-01-29.fit"%string.
Proof.
  destruct (@ride_file_is_the_name "data" "2024-01-29.fit"
              [msg t0 100; [timestamp_field (Some t1)]; msg t1 100; msg t2 100]
              (Ride.make "2024-01-29.fit" t0 100 100 100 0.2)) as [Hb Hf].
  - simpl. repeat split; discriminate.
  - split; [exact Hb | apply Hf; exact analyze_three_samples].
Defined.

(** ** The groups of [group_by_week] *)

(** X12.  In the dictionary that [group_by_week] returns no key occurs
    twice; a key maps to a list exactly when the list is the rides of
    that week in the order of the input and is not empty; and the lists
    put together are the rides up to order. *)
Theorem group_by_week_lookup (rides : list RideMetrics) (k : WeekKey)
    (g : list RideMetrics) :
  NoDup (map fst (group_by_week rides)) /\
  (In (k, g) (group_by_week rides) <-> g = rides_of_week k rides /\ g <> []) /\
  Permutation (concat (map snd (group_by_week rides))) rides.
Proof.
  destruct (group_by_week_invariant rides) as (Hnd & Hgroups & Hcover).
  split; [assumption|]. split; [split|].
  - apply Hgroups.
  - intros [-> Hne].
    destruct (rides_of_week k rides) as [|r rest] eqn:E; [congruence|].
    assert (Hr : In r (rides_of_week k rides)) by (rewrite E; left; reflexivity).
    apply rides_of_week_In in Hr as [Hr Hk].
    pose proof (Hcover r Hr) as Hin. rewrite Hk in Hin.
    apply in_map_iff in Hin as [[k' g'] [Hk' Hin]]. simpl in Hk'. subst k'.
    destruct (Hgroups _ _ Hin) as [Hg _].
    rewrite <- E, <- Hg. assumption.
  - replace (map snd (group_by_week rides))
      with (map (fun key => rides_of_week key rides)
                (map fst (group_by_week rides))).
    + apply groups_partition; assumption.
    + rewrite map_map. apply map_ext_in. intros [k' g'] Hin. simpl.
      destruct (Hgroups _ _ Hin) as [Hg _]. symmetry. assumption.
Qed.

(** ** The rows under changes of the rides *)

Lemma week_key_lt_asym (a b : WeekKey) : week_key_lt a b -> week_key_lt b a -> False.
Proof. unfold week_key_lt. lia. Qed.

Lemma strictly_ascending_unique (xs ys : list WeekKey) :
  StronglySorted week_key_lt xs -> StronglySorted week_key_lt ys ->
  (forall k, In k xs <-> In k ys) -> xs = ys.
Proof.
  intros Hxs. revert ys.
  induction Hxs as [|x xs Hs IH Hall]; intros ys Hys Hmem.
  - destruct ys as [|y ys]; [reflexivity|].
    exfalso. apply (Hmem y). left. reflexivity.
  - destruct Hys as [|y ys Hs' Hall'].
    + exfalso. apply (Hmem x). left. reflexivity.
    + rewrite Forall_forall in Hall, Hall'.
      assert (Hxy : x = y).
      { assert (Hx : In x (y :: ys)) by (apply Hmem; left; reflexivity).
        assert (Hy : In y (x :: xs)) by (apply Hmem; left; reflexivity).
        destruct Hx as [Hx|Hx]; [congruence|].
        destruct Hy as [Hy|Hy]; [assumption|].
        exfalso. apply (week_key_lt_asym (Hall _ Hy) (Hall' _ Hx)). }
      subst y. f_equal. apply IH; [assumption|].
      intros k. split; intros Hk.
      * assert (Hin : In k (x :: ys)) by (apply Hmem; right; assumption).
        destruct Hin as [<-|Hin]; [|assumption].
        exfalso. apply (week_key_lt_asym (Hall _ Hk) (Hall _ Hk)).
      * assert (Hin : In k (x :: xs)) by (apply Hmem; right; assumption).
        destruct Hin as [<-|Hin]; [|assumption].
        exfalso. apply (week_key_lt_asym (Hall' _ Hk) (Hall' _ Hk)).
Qed.

Lemma week_keys_permutation (rides rides' : list RideMetrics) :
  Permutation rides rides' -> week_keys rides = week_keys rides'.
Proof.
  intros Hperm. apply strictly_ascending_unique; try apply week_keys_ascending.
  intros k. rewrite !week_keys_present. split; intros [r [Hr Hk]]; exists r.
  - split; [apply (Permutation_in _ Hperm) | ]; assumption.
  - split; [apply (Permutation_in _ (Permutation_sym Hperm)) | ]; assumption.
Qed.

Lemma arithmetic_mean_permutation (xs ys : list R) :
  Permutation xs ys -> arithmetic_mean xs = arithmetic_mean ys.
Proof.
  intros Hperm. unfold arithmetic_mean.
  rewrite (total_permutation Hperm), (Permutation_length Hperm). reflexivity.
Qed.

Lemma row_of_week_permutation (rides rides' : list RideMetrics) (k : WeekKey) :
  Permutation rides rides' -> row_of_week rides k = row_of_week rides' k.
Proof.
  intros Hperm. unfold row_of_week.
  assert (Hg : Permutation (rides_of_week k rides) (rides_of_week k rides'))
    by (apply filter_permutation; assumption).
  rewrite (arithmetic_mean_permutation (Permutation_map Ride.avg_watts Hg)).
  rewrite (arithmetic_mean_permutation (Permutation_map Ride.avg_np Hg)).
  rewrite (arithmetic_mean_permutation
             (Permutation_map Ride.avg_noncoasting_watts Hg)).
  rewrite (total_permutation (Permutation_map Ride.total_kj Hg)).
  rewrite (Permutation_length Hg). reflexivity.
Qed.


Lemma weekly_summaries_nil_iff (rides : list RideMetrics) :
  weekly_summaries rides = Returns [] <-> rides = [].
Proof.
  rewrite weekly_summaries_rows. split.
  - intros H. injection H as H. apply map_eq_nil in H.
    destruct rides as [|r rides]; [reflexivity|].
    assert (Hin : In (week_key_of r) (week_keys (r :: rides)))
      by (apply week_keys_present; exists r; split; [left|]; reflexivity).
    rewrite H in Hin. destruct Hin.
  - intros ->. reflexivity.
Qed.

Lemma rows_same_but_total_kj (rides rides' : list RideMetrics)
    (rows rows' : list Summary.t) :
  Permutation rides rides' ->
  weekly_summaries rides = Returns rows ->
  weekly_summaries rides' = Returns rows' ->
  Forall2 same_but_total_kj rows rows'.
Proof.
  intros Hperm Hrows Hrows'.
  rewrite weekly_summaries_rows in Hrows, Hrows'.
  rewrite <- (week_keys_permutation Hperm) in Hrows'.
  injection Hrows as <-. injection Hrows' as <-.
  induction (week_keys rides) as [|k ks IH]; simpl; constructor.
  - rewrite (row_of_week_permutation k Hperm).
    unfold same_but_total_kj. repeat split; reflexivity.
  - exact IH.
Qed.

(** X13.  The order of the rides changes no row in its week, its three
    averages and its number of rides: the rows of the same rides in
    another order agree, one for one, in every field but [total_kj].
    There is no row exactly when there is no ride. *)
Theorem weekly_summaries_order_independent (rides rides' : list RideMetrics)
    (rows rows' : list Summary.t) :
  (Permutation rides rides' ->
   weekly_summaries rides = Returns rows ->
   weekly_summaries rides' = Returns rows' ->
   Forall2 same_but_total_kj rows rows') /\
  (weekly_summaries rides = Returns [] <-> rides = []).
Proof.
  split; [apply rows_same_but_total_kj | apply weekly_summaries_nil_iff].
Qed.

Lemma weekly_summaries_order_independent_witness :
  Forall2 same_but_total_kj
    [Summary.make "2024-W05" 160 165 170 2 650]
    (map (row_of_week [ride_w05_b; ride_w05_a])
         (week_keys [ride_w05_b; ride_w05_a])).
Proof.
  apply (weekly_summaries_order_independent
           [ride_w05_a; ride_w05_b] [ride_w05_b; ride_w05_a]
           [Summary.make "2024-W05" 160 165 170 2 650]
           (map (row_of_week [ride_w05_b; ride_w05_a])
                (week_keys [ride_w05_b; ride_w05_a]))).
  - apply perm_swap.
  - exact weekly_row_2024_W05.
  - apply weekly_summaries_rows.
Defined.

Lemma row_in_rows (rides : list RideMetrics) (rows : list Summary.t)
    (row : Summary.t) :
  weekly_summaries rides = Returns rows ->
  In row rows ->
  exists k, In k (week_keys rides) /\ row = row_of_week rides k.
Proof.
  rewrite weekly_summaries_rows. intros H Hrow. injection H as <-.
  apply in_map_iff in Hrow as [k [<- Hk]]. exists k. auto.
Qed.

Lemma group_field_bounds (f : RideMetrics -> R) (lo hi : R)
    (rides : list RideMetrics) (k : WeekKey) :
  Forall (fun r => lo <= f r <= hi) rides ->
  In k (week_keys rides) ->
  lo <= arithmetic_mean (map f (rides_of_week k rides)) <= hi.
Proof.
  intros Hall Hk. apply arithmetic_mean_bounds.
  - apply map_not_nil. apply week_group_not_nil. assumption.
  - apply Forall_forall. intros x Hx. apply in_map_iff in Hx as [r [<- Hr]].
    apply rides_of_week_In in Hr as [Hr _].
    rewrite Forall_forall in Hall. apply Hall. assumption.
Qed.

(** X14.  A weekly average lies between the smallest and the largest value
    of its field over the rides: bounds that hold for [avg_watts],
    [avg_np] or [avg_noncoasting_watts] of every ride hold for that field
    of every row; and no row counts more rides than there are. *)
Theorem weekly_averages_within_bounds (rides : list RideMetrics)
    (rows : list Summary.t) (lo hi : R) :
  weekly_summaries rides = Returns rows ->
  (Forall (fun r => lo <= Ride.avg_watts r <= hi) rides ->
   Forall (fun row => lo <= Summary.avg_watts row <= hi) rows) /\
  (Forall (fun r => lo <= Ride.avg_np r <= hi) rides ->
   Forall (fun row => lo <= Summary.avg_np row <= hi) rows) /\
  (Forall (fun r => lo <= Ride.avg_noncoasting_watts r <= hi) rides ->
   Forall (fun row => lo <= Summary.avg_noncoasting_watts row <= hi) rows) /\
  Forall (fun row => (Summary.ride_count row <= List.length rides)%nat) rows.
Proof.
  intros Hrows.
  split; [|split; [|split]]; try intros Hall; apply Forall_forall;
    intros row Hrow;
    destruct (@row_in_rows rides rows row Hrows Hrow) as [k [Hk ->]]; simpl.
  - apply group_field_bounds; assumption.
  - apply group_field_bounds; assumption.
  - apply group_field_bounds; assumption.
  - apply filter_length_le.
Qed.

Lemma weekly_averages_within_bounds_witness :
  Forall (fun row => 150 <= Summary.avg_watts row <= 170)
    [Summary.make "2024-W05" 160 165 170 2 650].
Proof.
  apply (@weekly_averages_within_bounds [ride_w05_a; ride_w05_b]
           [Summary.make "2024-W05" 160 165 170 2 650] 150 170).
  - exact weekly_row_2024_W05.
  - repeat constructor; simpl; lra.
Defined.

(** X15.  One more ride changes the row of its own week only: every row
    of another week stays as it is, and the row of the week of the ride
    counts one ride more than the rides of that week before. *)
Theorem one_more_ride (rides : list RideMetrics) (ride : RideMetrics)
    (rows rows' : list Summary.t) :
  weekly_summaries rides = Returns rows ->
  weekly_summaries (rides ++ [ride]) = Returns rows' ->
  (forall row, In row rows ->
     Summary.week row <> week_label (week_key_of ride) -> In row rows') /\
  (exists row', In row' rows' /\
     Summary.week row' = week_label (week_key_of ride) /\
     Summary.ride_count row'
     = S (List.length (rides_of_week (week_key_of ride) rides))).
Proof.
  intros Hrows Hrows'. split.
  - intros row Hrow Hlabel.
    destruct (@row_in_rows rides rows row Hrows Hrow) as [k [Hk ->]].
    simpl in Hlabel.
    assert (Hne : week_key_eqb (week_key_of ride) k = false).
    { apply week_key_eqb_neq. intros E. apply Hlabel. rewrite E. reflexivity. }
    rewrite weekly_summaries_rows in Hrows'. injection Hrows' as <-.
    apply in_map_iff. exists k. split.
    + unfold row_of_week. rewrite rides_of_week_snoc, Hne, app_nil_r.
      reflexivity.
    + apply week_keys_present. apply week_keys_present in Hk as [r [Hr Hkr]].
      exists r. split; [apply in_or_app; left|]; assumption.
  - rewrite weekly_summaries_rows in Hrows'. injection Hrows' as <-.
    exists (row_of_week (rides ++ [ride]) (week_key_of ride)).
    split; [|split].
    + apply in_map. apply week_keys_present. exists ride.
      split; [apply in_or_app; right; left|]; reflexivity.
    + reflexivity.
    + simpl. rewrite rides_of_week_snoc, week_key_eqb_refl, length_app.
      simpl. lia.
Qed.

Lemma one_more_ride_witness :
  exists row', In row' [Summary.make "2024-W05" 160 165 170 2 650] /\
     Summary.week row' = week_label (week_key_of ride_w05_b) /\
     Summary.ride_count row'
     = S (List.length (rides_of_week (week_key_of ride_w05_b) [ride_w05_a])).
Proof.
  apply (@one_more_ride [ride_w05_a] ride_w05_b
           (map (row_of_week [ride_w05_a]) (week_keys [ride_w05_a]))
           [Summary.make "2024-W05" 160 165 170 2 650]).
  - apply weekly_summaries_rows.
  - exact weekly_row_2024_W05.
Defined.

(** X16.  [summarize_week] returns a row for every list of rides, with
    the number of rides, the sum of their energy and the label of the
    key; for no ride at all the three averages are 0 and nothing is
    raised. *)
Theorem summarize_week_returns (week_key : WeekKey) (rides : list RideMetrics) :
  exists row,
    summarize_week week_key rides = Returns row /\
    Summary.week row = week_label week_key /\
    Summary.ride_count row = List.length rides /\
    Summary.total_kj row = total (map Ride.total_kj rides) /\
    (rides = [] ->
     Summary.avg_watts row = 0 /\ Summary.avg_np row = 0 /\
     Summary.avg_noncoasting_watts row = 0 /\ Summary.total_kj row = 0) /\
    (rides <> [] ->
     Summary.avg_watts row = arithmetic_mean (map Ride.avg_watts rides) /\
     Summary.avg_np row = arithmetic_mean (map Ride.avg_np rides) /\
     Summary.avg_noncoasting_watts row
     = arithmetic_mean (map Ride.avg_noncoasting_watts rides)).
Proof.
  destruct rides as [|r rides].
  - eexists. split; [reflexivity|]. simpl.
    split; [reflexivity|]. split; [reflexivity|]. split; [reflexivity|].
    split; [intros _; repeat split; reflexivity | intros H; congruence].
  - eexists. split.
    + unfold summarize_week.
      rewrite !_mean_returns by discriminate. reflexivity.
    + cbn [Summary.week Summary.ride_count Summary.total_kj Summary.avg_watts
           Summary.avg_np Summary.avg_noncoasting_watts].
      rewrite sum_total.
      split; [reflexivity|]. split; [reflexivity|]. split; [reflexivity|].
      split; [discriminate | intros _; repeat split; reflexivity].
Qed.

Lemma summarize_week_returns_witness :
  exists row,
    summarize_week (2024, 5)%Z [] = Returns row /\
    Summary.ride_count row = 0%nat /\ Summary.avg_watts row = 0.
Proof.
  destruct (summarize_week_returns (2024, 5)%Z [])
    as (row & Hrow & _ & Hcount & _ & Hnil & _).
  exists row. split; [exact Hrow|]. split; [exact Hcount|].
  apply Hnil. reflexivity.
Defined.

(** ** The week label *)

Lemma format_d_not_empty (n : Z) : (1 <= String.length (format_d n))%nat.
Proof.
  unfold format_d. destruct (Z.to_int n) as [u|u]; simpl.
  - destruct u; simpl; lia.
  - lia.
Qed.

(** X17.  Two week keys have the same label only when they are the same
    key; the week part of a label has two characters at least, and for a
    week from 0 to 9 it is a zero followed by the digit. *)
Theorem week_label_unique (a b : WeekKey) :
  (week_label a = week_label b <-> a = b) /\
  (2 <= String.length (format_02d (snd a)))%nat /\
  ((0 <= snd a <= 9)%Z -> format_02d (snd a) = ("0" ++ format_d (snd a))%string).
Proof.
  split; [split; [apply week_label_inj | intros ->; reflexivity]|].
  split.
  - unfold format_02d. pose proof (format_d_not_empty (snd a)) as Hlen.
    destruct (Nat.ltb_spec (String.length (format_d (snd a))) 2); simpl; lia.
  - intros Hw.
    assert (Hcases : (snd a = 0 \/ snd a = 1 \/ snd a = 2 \/ snd a = 3 \/
                      snd a = 4 \/ snd a = 5 \/ snd a = 6 \/ snd a = 7 \/
                      snd a = 8 \/ snd a = 9)%Z) by lia.
    repeat (destruct Hcases as [->|Hcases]; [reflexivity|]).
    rewrite Hcases. reflexivity.
Qed.

Lemma week_label_unique_witness :
  format_02d (snd (2024, 5)%Z) = ("0" ++ format_d (snd (2024, 5)%Z))%string.
Proof.
  apply (week_label_unique (2024, 5)%Z (2024, 5)%Z). simpl. lia.
Defined.

(** ** Strings *)

Lemma string_compare_trans (a b c : string) :
  String.compare a b <> Gt -> String.compare b c <> Gt ->
  String.compare a c <> Gt.
Proof.
  revert b c. induction a as [|x a IH]; intros [|y b] [|z c]; simpl;
    try congruence.
  unfold Ascii.compare.
  destruct (N.compare_spec (N_of_ascii x) (N_of_ascii y)),
           (N.compare_spec (N_of_ascii y) (N_of_ascii z)),
           (N.compare_spec (N_of_ascii x) (N_of_ascii z));
    try lia; try congruence.
  apply IH.
Qed.

Lemma string_leb_trans (a b c : string) :
  String.leb a b = true -> String.leb b c = true -> String.leb a c = true.
Proof.
  unfold String.leb. intros Hab Hbc.
  pose proof (@string_compare_trans a b c) as Ht.
  destruct (String.compare a b), (String.compare b c), (String.compare a c);
    try reflexivity; try discriminate; exfalso; apply Ht; congruence.
Qed.

Lemma string_length_append (a b : string) :
  String.length (a ++ b) = (String.length a + String.length b)%nat.
Proof. induction a as [|x a IH]; simpl; [reflexivity | rewrite IH; reflexivity]. Qed.

Lemma substring_all (s : string) : substring 0 (String.length s) s = s.
Proof. induction s as [|c s IH]; simpl; [reflexivity | rewrite IH; reflexivity]. Qed.

Lemma substring_append (pre suf : string) :
  substring (String.length pre) (String.length suf) (pre ++ suf) = suf.
Proof. induction pre as [|c pre IH]; simpl; [apply substring_all | exact IH]. Qed.

Lemma substring_split (s : string) (k : nat) :
  (k <= String.length s)%nat ->
  s = (substring 0 k s ++ substring k (String.length s - k) s)%string.
Proof.
  revert k. induction s as [|c s IH]; intros k Hk.
  - simpl in Hk. replace k with 0%nat by lia. reflexivity.
  - destruct k as [|k].
    + change (substring 0 0 (String c s)) with EmptyString.
      rewrite Nat.sub_0_r, substring_all. reflexivity.
    + simpl in Hk. simpl. f_equal. apply IH. lia.
Qed.

Lemma endswith_append (pre suf : string) : endswith (pre ++ suf) suf = true.
Proof.
  unfold endswith. rewrite string_length_append.
  replace (String.length pre + String.length suf - String.length suf)%nat
    with (String.length pre) by lia.
  rewrite substring_append, String.eqb_refl.
  apply andb_true_iff. split; [apply Nat.leb_le; lia | reflexivity].
Qed.

Lemma endswith_split (s suf : string) :
  endswith s suf = true -> exists pre, s = (pre ++ suf)%string.
Proof.
  unfold endswith. intros H. apply andb_true_iff in H as [Hlen Heq].
  apply Nat.leb_le in Hlen. apply String.eqb_eq in Heq.
  exists (substring 0 (String.length s - String.length suf) s).
  pose proof (@substring_split s (String.length s - String.length suf)) as Hs.
  replace (String.length s - (String.length s - String.length suf))%nat
    with (String.length suf) in Hs by lia.
  rewrite Heq in Hs. apply Hs. lia.
Qed.

Lemma lower_append (a b : string) : lower (a ++ b) = (lower a ++ lower b)%string.
Proof. induction a as [|x a IH]; simpl; [reflexivity | rewrite IH; reflexivity]. Qed.

Lemma lower_split (s p q : string) :
  lower s = (p ++ q)%string ->
  exists s1 s2, s = (s1 ++ s2)%string /\ lower s1 = p /\ lower s2 = q.
Proof.
  revert s. induction p as [|c p IH]; intros s H.
  - exists EmptyString, s. auto.
  - destruct s as [|x s]; [discriminate|].
    simpl in H. injection H as Hc H.
    destruct (IH s H) as (s1 & s2 & -> & Hs1 & Hs2).
    exists (String x s1), s2. simpl. rewrite Hc, Hs1. auto.
Qed.

Lemma is_fit_iff (name : string) :
  is_fit name = true <->
  exists stem ext, name = (stem ++ ext)%string /\ lower ext = ".fit"%string.
Proof.
  unfold is_fit. split.
  - intros H. apply endswith_split in H as [pre Hpre].
    apply lower_split in Hpre as (s1 & s2 & -> & _ & Hs2).
    exists s1, s2. auto.
  - intros (stem & ext & -> & Hext).
    rewrite lower_append, Hext. apply endswith_append.
Qed.

(** ** File discovery *)

Lemma fit_files_permutation (data_dir : string) (names : list string) :
  Permutation (fit_files_of data_dir (Some names))
    (map (join data_dir) (filter is_fit names)).
Proof. unfold fit_files_of. apply sorted_permutation. Qed.

(** X18.  When [data_dir] is not a directory there is no file to analyze.
    Otherwise the files are the paths made of [data_dir] and of the names
    of the listing that end in ".fit" in any mix of upper and lower case,
    they come in ascending order of the paths, and they do not depend on
    the order of the listing. *)
Theorem fit_files_discovery (data_dir : string) (names names' : list string)
    (fit_path : string) :
  fit_files_of data_dir None = [] /\
  StronglySorted (fun a b => String.leb a b = true)
    (fit_files_of data_dir (Some names)) /\
  (In fit_path (fit_files_of data_dir (Some names)) <->
   exists stem ext,
     In (stem ++ ext)%string names /\ lower ext = ".fit"%string /\
     fit_path = join data_dir (stem ++ ext)) /\
  (Permutation names names' ->
   fit_files_of data_dir (Some names) = fit_files_of data_dir (Some names')).
Proof.
  split; [reflexivity|]. split; [|split].
  - unfold fit_files_of.
    apply (sorted_ascending (fun p : string => p) String.leb
             String.leb_total string_leb_trans).
  - split.
    + intros Hin.
      apply (Permutation_in _ (fit_files_permutation data_dir names)) in Hin.
      apply in_map_iff in Hin as [name [<- Hname]].
      apply filter_In in Hname as [Hname Hfit].
      apply is_fit_iff in Hfit as (stem & ext & -> & Hext).
      exists stem, ext. auto.
    + intros (stem & ext & Hin & Hext & ->).
      apply (Permutation_in _
               (Permutation_sym (fit_files_permutation data_dir names))).
      apply in_map. apply filter_In. split; [assumption|].
      apply is_fit_iff. exists stem, ext. auto.
  - intros Hperm. unfold fit_files_of.
    apply (sorted_of_permutation (fun p : string => p) String.leb
             String.leb_total string_leb_trans String.leb_antisym).
    + apply Permutation_map, filter_permutation. assumption.
    + intros a b _ _ E. exact E.
Qed.

Lemma fit_files_discovery_witness :
  fit_files_of "data" (Some ["b.fit"; "notes.txt"; "A.FIT"]%string)
  = fit_files_of "data" (Some ["A.FIT"; "b.fit"; "notes.txt"]%string).
Proof.
  apply (fit_files_discovery "data" ["b.fit"; "notes.txt"; "A.FIT"]%string
           ["A.FIT"; "b.fit"; "notes.txt"]%string "").
  apply Permutation_sym.
  apply (Permutation_cons_app ["b.fit"; "notes.txt"]%string []).
  reflexivity.
Defined.

(** ** The run over the files *)

Lemma analyze_ride_cases (fit_path : string) (messages : list message) :
  (existsb complete messages = false /\
   analyze_ride fit_path messages = Returns None) \/
  (existsb complete messages = true /\
   exists ride, analyze_ride fit_path messages = Returns (Some ride)).
Proof.
  destruct (_extract_records messages) as [|r rest] eqn:E.
  - left. split; [|apply analyze_ride_empty; assumption].
    apply (f_equal (@List.length Record_)) in E.
    rewrite (Permutation_length (extract_records_permutation messages)) in E.
    rewrite flat_map_extract_length in E.
    destruct (existsb complete messages) eqn:Ex; [|reflexivity].
    apply existsb_exists in Ex as [m [Hm Hc]].
    assert (Hin : In m (filter complete messages))
      by (apply filter_In; auto).
    destruct (filter complete messages); [destruct Hin | discriminate].
  - right. split.
    + assert (Hin : In r (_extract_records messages))
        by (rewrite E; left; reflexivity).
      apply (Permutation_in _ (extract_records_permutation messages)) in Hin.
      apply in_flat_map in Hin as [m [Hm Hin]].
      apply existsb_exists. exists m. split; [assumption|].
      destruct (complete m) eqn:Ec; [reflexivity|].
      apply extract_one_complete in Ec. rewrite Ec in Hin. destruct Hin.
    + destruct (analyze_ride_samples fit_path messages E)
        as (np & nc & _ & _ & Hr).
      eexists. exact Hr.
Qed.

Lemma collect_rides_returns (fit_files : list (string * list message)) :
  collect_rides fit_files = Returns (rides_of fit_files).
Proof.
  induction fit_files as [|[fit_path messages] rest IH]; [reflexivity|].
  simpl. rewrite IH.
  destruct (analyze_ride_cases fit_path messages) as [[_ Hr]|[_ [ride Hr]]];
    rewrite Hr; reflexivity.
Qed.

Lemma rides_of_has_data (fit_files : list (string * list message)) :
  rides_of (filter has_data fit_files) = rides_of fit_files /\
  List.length (rides_of fit_files) = List.length (filter has_data fit_files).
Proof.
  induction fit_files as [|[fit_path messages] rest [IH1 IH2]];
    [split; reflexivity|].
  cbn [filter].
  change (has_data (fit_path, messages)) with (existsb complete messages).
  destruct (analyze_ride_cases fit_path messages) as [[Hd Hr]|[Hd [ride Hr]]];
    rewrite Hd; unfold rides_of in *; cbn [flat_map fst snd]; rewrite Hr.
  - split; assumption.
  - split; [f_equal; assumption|].
    rewrite length_app. simpl. f_equal. assumption.
Qed.

Lemma filter_none {A : Type} (f : A -> bool) (xs : list A) :
  Forall (fun x => f x = false) xs -> filter f xs = [].
Proof.
  induction 1 as [|x xs Hx _ IH]; [reflexivity|].
  simpl. rewrite Hx. assumption.
Qed.

Lemma summarize_directory_weekly (fit_files : list (string * list message)) :
  summarize_directory fit_files = weekly_summaries (rides_of fit_files).
Proof.
  unfold summarize_directory. rewrite collect_rides_returns. reflexivity.
Qed.

Lemma rides_of_nil_iff (fit_files : list (string * list message)) :
  rides_of fit_files = [] <-> Forall (fun file => has_data file = false) fit_files.
Proof.
  destruct (rides_of_has_data fit_files) as [_ Hlen].
  rewrite <- length_zero_iff_nil, Hlen, length_zero_iff_nil. split.
  - intros Hnil. apply Forall_forall. intros file Hin.
    destruct (has_data file) eqn:Ed; [|reflexivity].
    assert (Hf : In file (filter has_data fit_files)) by (apply filter_In; auto).
    rewrite Hnil in Hf. destruct Hf.
  - apply filter_none.
Qed.

(** X19.  When the run over the files returns its rows: a file counts as a
    ride exactly when one of its messages has both a timestamp and a
    power, so the [ride_count] of the rows add up to the number of such
    files, the other files can be left out without a change, and there is
    no row exactly when there is no such file.  The rows of the same files
    in another order agree, one for one, in every field but [total_kj]. *)
Theorem summarize_directory_files
    (fit_files fit_files' : list (string * list message))
    (rows rows' : list Summary.t) :
  summarize_directory fit_files = Returns rows ->
  list_sum (map Summary.ride_count rows)
  = List.length (filter has_data fit_files) /\
  summarize_directory (filter has_data fit_files) = Returns rows /\
  (rows = [] <-> Forall (fun file => has_data file = false) fit_files) /\
  (Permutation fit_files fit_files' ->
   summarize_directory fit_files' = Returns rows' ->
   Forall2 same_but_total_kj rows rows').
Proof.
  rewrite !summarize_directory_weekly. intros Hrows.
  destruct (rides_of_has_data fit_files) as [Hfilter Hlen].
  split; [|split; [|split]].
  - rewrite weekly_summaries_rows in Hrows. injection Hrows as <-.
    rewrite map_map. cbn [row_of_week Summary.ride_count].
    rewrite <- Hlen.
    rewrite <- (Permutation_length (week_keys_partition (rides_of fit_files))).
    rewrite length_concat, map_map. reflexivity.
  - rewrite Hfilter. exact Hrows.
  - rewrite <- rides_of_nil_iff, <- weekly_summaries_nil_iff, Hrows.
    split; intros H; [rewrite H; reflexivity | injection H as H; exact H].
  - intros Hperm Hrows'.
    apply (rows_same_but_total_kj (rides := rides_of fit_files)
             (rides' := rides_of fit_files')); try assumption.
    unfold rides_of. apply Permutation_flat_map. assumption.
Qed.

Lemma summarize_directory_files_witness :
  let files := [("b.fit"%string, [msg t0 100]); ("a.fit"%string, [])] in
  list_sum (map Summary.ride_count
              (map (row_of_week (rides_of files)) (week_keys (rides_of files))))
  = List.length (filter has_data files).
Proof.
  intros files.
  apply (@summarize_directory_files files files
           (map (row_of_week (rides_of files)) (week_keys (rides_of files)))
           []).
  rewrite summarize_directory_weekly. apply weekly_summaries_rows.
Defined.

(** ** The run from the directory and the report *)

Lemma report_notice (output : string) (rows : list Summary.t) :
  report output rows = "No FIT files found or no usable data."%string
  <-> rows = [].
Proof.
  destruct rows as [|row rows]; simpl; split; intros H;
    try reflexivity; discriminate.
Qed.

(** X20.  When the run from a directory returns its summaries, [main]
    prints the notice of no data exactly when no file of the directory that
    is analyzed has a message with both a timestamp and a power, which is
    the case when [data_dir] is not a directory; otherwise it prints the
    path of the output. *)
Theorem main_report (decode : string -> list message)
    (data_dir output : string) (listing : option (list string))
    (summaries : list Summary.t) :
  summarize_data_dir decode data_dir listing = Returns summaries ->
  (report output summaries = "No FIT files found or no usable data."%string <->
   forall fit_path, In fit_path (fit_files_of data_dir listing) ->
                    existsb complete (decode fit_path) = false) /\
  (report output summaries = ("Wrote weekly summary to " ++ output)%string <->
   exists fit_path, In fit_path (fit_files_of data_dir listing) /\
                    existsb complete (decode fit_path) = true) /\
  (listing = None ->
   report output summaries = "No FIT files found or no usable data."%string).
Proof.
  unfold summarize_data_dir. rewrite summarize_directory_weekly.
  set (files := map (fun fit_path => (fit_path, decode fit_path))
                    (fit_files_of data_dir listing)).
  intros Hret.
  assert (Hrows : summaries = [] <->
            forall fit_path, In fit_path (fit_files_of data_dir listing) ->
                             existsb complete (decode fit_path) = false).
  { assert (Hiff : weekly_summaries (rides_of files) = Returns []
                   <-> rides_of files = []) by apply weekly_summaries_nil_iff.
    rewrite Hret in Hiff.
    rewrite rides_of_nil_iff, Forall_forall in Hiff.
    split.
    - intros Hnil fit_path Hin.
      assert (Hall : forall file, In file files -> has_data file = false)
        by (apply Hiff; rewrite Hnil; reflexivity).
      apply (Hall (fit_path, decode fit_path)).
      unfold files. apply in_map_iff. exists fit_path. auto.
    - intros Hall.
      assert (Hr : Returns summaries = Returns []).
      { apply Hiff. intros file Hin. unfold files in Hin.
        apply in_map_iff in Hin as [fit_path [<- Hin]].
        apply (Hall fit_path Hin). }
      injection Hr as Hr. exact Hr. }
  clear Hret. split; [|split].
  - rewrite report_notice. exact Hrows.
  - split.
    + intros Hreport.
      destruct summaries as [|row rest]; [simpl in Hreport; discriminate|].
      destruct (existsb (fun fit_path => existsb complete (decode fit_path))
                  (fit_files_of data_dir listing)) eqn:Ex.
      * apply existsb_exists in Ex. exact Ex.
      * exfalso. assert (Hnil : row :: rest = []); [|discriminate].
        apply Hrows. intros fit_path Hin.
        destruct (existsb complete (decode fit_path)) eqn:Ec; [|reflexivity].
        assert (Hex : existsb (fun fit_path => existsb complete (decode fit_path))
                        (fit_files_of data_dir listing) = true)
          by (apply existsb_exists; exists fit_path; auto).
        congruence.
    + intros (fit_path & Hin & Hc).
      destruct summaries as [|row rest]; [|reflexivity].
      exfalso. assert (Hf : existsb complete (decode fit_path) = false)
        by (apply Hrows; [reflexivity | assumption]).
      congruence.
  - intros ->. apply report_notice. apply Hrows. intros fit_path [].
Qed.

Lemma main_report_witness :
  report "output/weekly_summary.csv" []
  = "No FIT files found or no usable data."%string.
Proof.
  destruct (@main_report (fun _ => []) "data" "output/weekly_summary.csv"
              None []) as (_ & _ & Hnone).
  - reflexivity.
  - apply Hnone. reflexivity.
Defined.
